(** * ServerlessContainers: the Guardian policy engine and the CouchDB facade

    A shallow embedding of [src/Guardian/Guardian.py] and
    [StateDatabase/couchDB.py].

    Conventions of the embedding.
    - A Python [dict] keyed by strings is a [gmap string _]; a missing key is
      [None] and reading it raises [KeyError].
    - The fields [min], [max], [current], [upper], [lower], [boundary] hold
      Python integers (the data model of the documents), embedded as [Z];
      [int(v)] is the identity on them.
    - Exceptions are values of [exception]; a call that may raise returns a
      [result].  Code that mutates a dictionary in place is written in
      state-passing style and hands back the dictionary as it stands when
      the call ends, also when it ends with an exception. *)

From Stdlib Require Import ZArith QArith Qround Lia Lqa.
From stdpp Require Import gmap strings list fin_maps.

Local Open Scope string_scope.
Local Open Scope list_scope.
Local Open Scope Z_scope.

(** ** Python exceptions and results *)

Inductive exception : Type :=
| ValueError
| RuntimeError (msg : string)
| KeyError (key : string)
| HTTPError (status : Z)
| OverflowError.

Inductive result (A : Type) : Type :=
| Ok (a : A)
| Raise (e : exception).

Arguments Ok {A} a.
Arguments Raise {A} e.

Definition rbind {A B : Type} (r : result A) (k : A -> result B) : result B :=
  match r with
  | Ok a => k a
  | Raise e => Raise e
  end.

Notation "x <- r ;; k" := (rbind r (fun x => k))
  (at level 100, r at next level, right associativity).

(** [d[key]]: the value, or [KeyError]. *)
Definition getitem {V : Type} (d : gmap string V) (key : string) : result V :=
  match d !! key with
  | Some v => Ok v
  | None => Raise (KeyError key)
  end.

(** ** Python numbers

    An amount or a usage is a Python [int] or a Python [float].  A float is
    embedded as the rational it denotes.  Sums, differences and products
    that involve a float are taken as exact, so the embedding says nothing
    about their rounding, about infinities or about nan; the statements
    that depend on such a result being exact are made for integers, where
    Python computes exactly.  The division of two integers, which gives a
    float, is rounded as Python 3 rounds it ([truediv]).  Mixed arithmetic
    follows Python: [int] with [int] stays an [int], anything with a
    [float] is a [float]; comparisons between the two are exact. *)

Inductive number : Type :=
| Int (z : Z)
| Float (q : Q).

Module Num.

Definition to_Q (a : number) : Q :=
  match a with
  | Int z => inject_Z z
  | Float q => q
  end.

Definition add (a b : number) : number :=
  match a, b with
  | Int x, Int y => Int (x + y)
  | _, _ => Float (to_Q a + to_Q b)
  end.

Definition sub (a b : number) : number :=
  match a, b with
  | Int x, Int y => Int (x - y)
  | _, _ => Float (to_Q a - to_Q b)
  end.

Definition mul (a b : number) : number :=
  match a, b with
  | Int x, Int y => Int (x * y)
  | _, _ => Float (to_Q a * to_Q b)
  end.

(** [a < b] and [a == b] *)
Definition ltb (a b : number) : bool :=
  match (to_Q a ?= to_Q b)%Q with
  | Lt => true
  | _ => false
  end.

Definition eqb (a b : number) : bool :=
  match (to_Q a ?= to_Q b)%Q with
  | Eq => true
  | _ => false
  end.

(** [int(q)] on a float: truncation toward zero. *)
Definition truncate (q : Q) : Z :=
  if Qle_bool 0 q then Qfloor q else Qceiling q.

Definition int (a : number) : Z :=
  match a with
  | Int z => z
  | Float q => truncate q
  end.

(** *** The division of two integers

    [a / b] on two Python 3 integers is the double nearest to the quotient,
    a tie going to the even mantissa, and an [OverflowError] when that
    double would not be finite. *)

(** The integer part of the binary logarithm of [n / d], for [n] and [d]
    above zero. *)
Definition log2_floor (n d : Z) : Z :=
  let k := Z.log2 n - Z.log2 d in
  if 0 <=? k then (if d * 2 ^ k <=? n then k else k - 1)
  else (if d <=? n * 2 ^ (- k) then k else k - 1).

(** The integer nearest to [n / d], the even one of two that are equally
    near, for [n] not negative and [d] above zero. *)
Definition round_half_even (n d : Z) : Z :=
  let q := n / d in
  match 2 * (n mod d) ?= d with
  | Lt => q
  | Gt => q + 1
  | Eq => if Z.even q then q else q + 1
  end.

(** The double nearest to [q]: a mantissa of 53 bits over the exponent [e],
    which does not go under that of the subnormal numbers; [None] when the
    nearest double is not finite. *)
Definition binary64 (q : Q) : option Q :=
  let n := Z.abs (Qnum q) in
  let d := Zpos (Qden q) in
  if n =? 0 then Some 0%Q
  else
    let e := Z.max (log2_floor n d - 52) (-1074) in
    let m := if 0 <=? e then round_half_even n (d * 2 ^ e)
             else round_half_even (n * 2 ^ (- e)) d in
    let s := Z.sgn (Qnum q) in
    if 0 <=? e then
      if 2 ^ 1024 <=? m * 2 ^ e then None
      else Some (inject_Z (s * (m * 2 ^ e)))
    else Some (s * m # Z.to_pos (2 ^ (- e))).

(** [a / b] for an integer [a] and an integer [b] above zero. *)
Definition truediv (a : Z) (b : positive) : result number :=
  match binary64 (a # b) with
  | Some q => Ok (Float q)
  | None => Raise OverflowError
  end.

End Num.

Module Guardian.

(** ** Validation of a container's resource state *)

(** [try_get_value(d, key)]: [int(d[key])], or the string [n/a] (here
    [None]) when the key is missing. *)
Definition try_get_value (d : gmap string Z) (key : string) : option Z :=
  d !! key.

(** [check_unset_values]: raises [ValueError] on the [n/a] value.  The
    embedding hands the integer back so that the caller can go on with it. *)
Definition check_unset_values (value : option Z) (label resource : string)
  : result Z :=
  match value with
  | None => Raise ValueError
  | Some v => Ok v
  end.

(** [check_invalid_values]: the policy [value1 <= value2]. *)
Definition check_invalid_values (value1 : Z) (label1 : string)
  (value2 : Z) (label2 : string) (resource : string) : result unit :=
  if (value2 <? value1) && String.eqb label1 "current" && String.eqb label2 "max"
  then Raise (RuntimeError
    ("somehow this structure has a resource limit applied higher than maximum for "
       ++ resource)%string)
  else if value2 <? value1 then Raise ValueError
  else Ok tt.

Definition check_invalid_container_state
  (resources limits : gmap string (gmap string Z)) (resource : string)
  : result unit :=
  match resources !! resource with
  | None => Raise (RuntimeError
      ("resource values not available for resource " ++ resource)%string)
  | Some res =>
  match limits !! resource with
  | None => Raise (RuntimeError
      ("limit values not available for resource " ++ resource)%string)
  | Some lim =>
    let v_max := try_get_value res "max" in
    let v_current := try_get_value res "current" in
    let v_upper := try_get_value lim "upper" in
    let v_lower := try_get_value lim "lower" in
    let v_min := try_get_value res "min" in
    boundary <- getitem lim "boundary" ;;
    (* every value is checked, [current] included *)
    max <- check_unset_values v_max "max" resource ;;
    current <- check_unset_values v_current "current" resource ;;
    upper <- check_unset_values v_upper "upper" resource ;;
    lower <- check_unset_values v_lower "lower" resource ;;
    _ <- check_unset_values v_min "min" resource ;;
    (* the chain current <= max, upper <= current, lower <= upper *)
    _ <- check_invalid_values current "current" max "max" resource ;;
    _ <- check_invalid_values upper "upper" current "current" resource ;;
    _ <- check_invalid_values lower "lower" upper "upper" resource ;;
    (* the boundary between current and upper *)
    if current - boundary <? upper then Raise ValueError
    else if upper <? current - boundary then Raise ValueError
    else Ok tt
  end
  end.

(** The two dictionaries that [adjust_container_state] is handed, as they
    stand at some point of the call. *)
Record container_state : Type := MkContainerState {
  resources : gmap string (gmap string Z);
  limits : gmap string (gmap string Z)
}.

(** The [except ValueError] branch of [adjust_container_state]: two
    assignments into [limits[resource]].  An exception of the first leaves
    the dictionaries as they were. *)
Definition repair_limits (st : container_state) (resource : string)
  : result unit * container_state :=
  match
    (lim <- getitem (limits st) resource ;;
     boundary <- getitem lim "boundary" ;;
     res <- getitem (resources st) resource ;;
     current <- getitem res "current" ;;
     Ok (lim, boundary, current))
  with
  | Raise e => (Raise e, st)
  | Ok (lim, boundary, current) =>
    let lim1 := <["upper" := current - boundary]> lim in
    let lim2 := <["lower" := (current - boundary) - boundary]> lim1 in
    (Ok tt, {| resources := resources st;
               limits := <[resource := lim2]> (<[resource := lim1]> (limits st)) |})
  end.

(** How the loop over one resource ends: the exception or the normal exit,
    the dictionaries at that point, and the value of [n_loop]. *)
Record loop_end : Type := LoopEnd {
  ended : result unit;
  state_after : container_state;
  n_loop_after : Z
}.

Definition error_fixing_limits : exception := RuntimeError "Error fixing limits".

(** [while errors and n_loop < 10: ...] for one resource.  [fuel] bounds the
    number of iterations the embedding unfolds; [None] is fuel exhausted. *)
Fixpoint adjust_loop (fuel : nat) (resource : string)
  (st : container_state) (n_loop : Z) (errors : bool) : option loop_end :=
  if errors && (n_loop <? 10) then
    match fuel with
    | O => None
    | S fuel' =>
      let after_try (st' : container_state) (errors' : bool) :=
        let n_loop' := n_loop + 1 in
        if 10 <=? n_loop'
        then Some (LoopEnd (Raise error_fixing_limits) st' n_loop')
        else adjust_loop fuel' resource st' n_loop' errors' in
      match check_invalid_container_state (resources st) (limits st) resource with
      | Ok _ => after_try st false
      | Raise ValueError =>
        match repair_limits st resource with
        | (Ok _, st') => after_try st' errors
        | (Raise e, st') => Some (LoopEnd (Raise e) st' n_loop)
        end
      | Raise e => Some (LoopEnd (Raise e) st n_loop)
      end
    end
  else Some (LoopEnd (Ok tt) st n_loop).

(** The body of [for resource in resources_to_adjust]. *)
Definition adjust_resource (st : container_state) (resource : string)
  : option loop_end :=
  adjust_loop 10 resource st 0 true.

(** The loop of [adjust_container_state] over the resources, on the
    dictionaries as state. *)
Fixpoint adjust_resources (st : container_state)
  (resources_to_adjust : list string) : option (result unit * container_state) :=
  match resources_to_adjust with
  | [] => Some (Ok tt, st)
  | resource :: rest =>
    match adjust_resource st resource with
    | None => None
    | Some (LoopEnd (Ok _) st' _) => adjust_resources st' rest
    | Some (LoopEnd (Raise e) st' _) => Some (Raise e, st')
    end
  end.

(** [adjust_container_state(resources, limits, resources_to_adjust)]: how the
    call ends ([Ok] stands for [return limits], the dictionary handed in) and
    the two dictionaries as the call leaves them. *)
Definition adjust_container_state
  (resources limits : gmap string (gmap string Z))
  (resources_to_adjust : list string) : option (result unit * container_state) :=
  adjust_resources {| resources := resources; limits := limits |}
    resources_to_adjust.

(** ** Events: aging and reduction *)

(** An event document.  [event_scale] is [event["action"]["events"]["scale"]],
    a dictionary of counters; [event_timestamp] is in epoch seconds. *)
Record event : Type := MkEvent {
  event_name : string;
  event_resource : string;
  event_structure : string;
  event_scale : gmap string Z;
  event_timestamp : Z
}.

(** The counters [{"down": _, "up": _}] that [reduce_structure_events] keeps
    per resource, under [["events"]["scale"]]. *)
Record scale_counters : Type := MkCounters {
  down : Z;
  up : Z
}.

Definition zero_counters : scale_counters := {| down := 0; up := 0 |}.

(** [counters[key] += value] on a dictionary whose keys are [down] and [up]. *)
Definition counters_add_key (c : scale_counters) (key : string) (value : Z)
  : result scale_counters :=
  if String.eqb key "down" then Ok {| down := down c + value; up := up c |}
  else if String.eqb key "up" then Ok {| down := down c; up := up c + value |}
  else Raise (KeyError key).

(** The body of [for key in event["action"]["events"]["scale"].keys()]. *)
Definition reduce_key (resource : string)
  (acc : result (gmap string scale_counters)) (kv : string * Z)
  : result (gmap string scale_counters) :=
  events_reduced <- acc ;;
  c <- getitem events_reduced resource ;;
  c' <- counters_add_key c kv.1 kv.2 ;;
  Ok (<[resource := c']> events_reduced).

(** The body of [for event in structure_events]. *)
Definition reduce_event (events_reduced : gmap string scale_counters)
  (ev : event) : result (gmap string scale_counters) :=
  let resource := event_resource ev in
  let events_reduced1 :=
    match events_reduced !! resource with
    | Some _ => events_reduced
    | None => <[resource := zero_counters]> events_reduced
    end in
  foldl (reduce_key resource) (Ok events_reduced1) (map_to_list (event_scale ev)).

Definition reduce_structure_events (structure_events : list event)
  : result (gmap string scale_counters) :=
  foldl (fun acc ev => events_reduced <- acc ;; reduce_event events_reduced ev)
    (Ok ∅) structure_events.

(** ** The amount of a rescaling *)

Definition NON_ADJUSTABLE_RESOURCES : list string := ["energy"].

Definition translator_dict : gmap string string :=
  <["cpu" := "structure.cpu.usage"]>
    (<["mem" := "structure.mem.usage"]>
      (<["energy" := "structure.energy.usage"]> ∅)).

Definition adjust_amount (amount : number)
  (structure_resources structure_limits : gmap string Z) : result number :=
  current <- getitem structure_resources "current" ;;
  let expected_value := Num.add (Int current) amount in
  lower <- getitem structure_limits "lower" ;;
  let lower_limit := Num.add (Int lower) amount in
  min_limit <- getitem structure_resources "min" ;;
  max_limit <- getitem structure_resources "max" ;;
  if Num.ltb lower_limit (Int min_limit)
  then Ok (Num.add amount (Num.sub (Int min_limit) lower_limit))
  else if Num.ltb (Int max_limit) expected_value
  then Ok (Num.sub amount (Num.sub expected_value (Int max_limit)))
  else Ok amount.

(** [upper_to_lower_window / 2] divides two integers and gives a float,
    the double nearest to the half of the boundary, which [int] then cuts
    toward zero; a boundary too large for a double makes the division
    raise. *)
Definition get_amount_from_fit_reduction (current_resource_limit boundary : Z)
  (current_resource_usage : number) : result number :=
  let upper_to_lower_window := boundary in
  let current_to_upper_window := boundary in
  half <- Num.truediv upper_to_lower_window 2 ;;
  let desired_applied_resource_limit :=
    Num.add (Num.add current_resource_usage (Int (Num.int half)))
            (Int current_to_upper_window) in
  Ok (Num.mul (Int (-1))
        (Num.sub (Int current_resource_limit) desired_applied_resource_limit)).

(** The rounding guard of [match_rules_and_events]. *)
Definition rounding_guard (amount : number) : number :=
  if (Num.int amount =? 0) && Num.ltb amount (Int 0) then Int (-1)
  else if (Num.int amount =? 0) && Num.ltb (Int 0) amount then Int 1
  else amount.

(** ** Structures, rules and requests *)

(** A structure document.  Of a resource's record only the numeric fields
    are kept ([min], [max], [current], [usage]); a missing field is a missing
    key.  The host fields are present on containers. *)
Record structure : Type := MkStructure {
  structure_name : string;
  structure_subtype : string;
  structure_resources : gmap string (gmap string Z);
  structure_host : option string;
  structure_host_rescaler_ip : option string;
  structure_host_rescaler_port : option string
}.

Definition is_container (s : structure) : bool :=
  String.eqb (structure_subtype s) "container".

Record request : Type := MkRequest {
  request_type : string;
  request_resource : string;
  request_amount : Z;
  request_structure : string;
  request_action : string;
  request_timestamp : Z;
  request_structure_type : string;
  request_for_energy : option bool;
  request_host : option string;
  request_host_rescaler_ip : option string;
  request_host_rescaler_port : option string
}.

(** What the loop of [match_rules_and_events] has built so far, and the
    number of readings of the clock taken so far. *)
Record requests_state : Type := MkState {
  generated_requests : list request;
  events_to_remove : gmap string Z;
  clock_tick : nat
}.

(** ** What the Guardian takes from outside

    The clock, the rule evaluator of the [json_logic] package and the two
    naming helpers of [MyUtils] are not part of the embedded files; the
    functions that call them are parametric in them. *)
Section Externals.

(** [time_time k] is what the [k]-th call of [time.time()] returns. *)
Variable time_time : nat -> Q.

(** The predicate language of the rules and its evaluator, applied to the
    reduced counters of a resource. *)
Variable rule_expr : Type.
Variable jsonLogic : rule_expr -> scale_counters -> bool.

(** [generate_event_name(events[resource]["events"], resource)] and
    [generate_request_name(amount, resource)]; either may raise. *)
Variable generate_event_name : scale_counters -> string -> result string.
Variable generate_request_name : number -> string -> result string.

(** [self.cpu_shares_per_watt] *)
Variable cpu_shares_per_watt : number.

(** The body of the loop of [sort_events]; the clock is read at each event. *)
Definition sort_event (event_timeout : Z)
  (acc : list event * list event * nat) (ev : event)
  : list event * list event * nat :=
  let '(valid, invalid, tick) := acc in
  if Num.ltb (Int (event_timestamp ev))
             (Num.sub (Float (time_time tick)) (Int event_timeout))
  then (valid, invalid ++ [ev], S tick)
  else (valid ++ [ev], invalid, S tick).

(** [sort_events]: the valid events, the invalid ones, and the number of
    clock readings taken, starting from reading number [tick]. *)
Definition sort_events (structure_events : list event) (event_timeout : Z)
  (tick : nat) : list event * list event * nat :=
  foldl (sort_event event_timeout) ([], [], tick) structure_events.

Record rule : Type := MkRule {
  rule_name : string;
  rule_active : bool;
  rule_resource : string;
  rule_rule : rule_expr;
  rule_generates : string;
  rule_rescale_by : option string;
  rule_amount : option number;
  rule_events_to_remove : option Z
}.

(** The energy kept in a structure document is read as an integer, like
    the other fields, and the product with the rate is taken as exact. *)
Definition get_amount_from_proportional_energy_rescaling
  (s : structure) (resource : string) : result number :=
  res <- getitem (structure_resources s) resource ;;
  max_resource_limit <- getitem res "max" ;;
  current_resource_limit <- getitem res "usage" ;;
  let difference := max_resource_limit - current_resource_limit in
  let energy_amplification := Num.mul (Int difference) cpu_shares_per_watt in
  Ok (Int (Num.int energy_amplification)).

Definition generate_request (s : structure) (amount : number)
  (resource action : string) (tick : nat) : request :=
  {| request_type := "request";
     request_resource := resource;
     request_amount := Num.int amount;
     request_structure := structure_name s;
     request_action := action;
     request_timestamp := Num.truncate (time_time tick);
     request_structure_type := structure_subtype s;
     request_for_energy := None;
     request_host := None;
     request_host_rescaler_ip := None;
     request_host_rescaler_port := None |}.

Section Rule.

Variable s : structure.
Variable events : gmap string scale_counters.
Variable limits : gmap string (gmap string Z).
Variable usages : gmap string number.

(** The condition under which the body of the rule is entered. *)
Definition rule_fires (r : rule) : bool :=
  rule_active r && String.eqb (rule_generates r) "requests" &&
  match events !! rule_resource r with
  | Some reduced => jsonLogic (rule_rule r) reduced
  | None => false
  end.

(** [is_container(structure) and "current" not in structure["resources"][resource_label]] *)
Definition no_current_value (resource_label : string) : result bool :=
  if is_container s then
    res <- getitem (structure_resources s) resource_label ;;
    Ok (match res !! "current" with None => true | Some _ => false end)
  else Ok false.

(** The amount the policy of the rule asks for; a rule without [rescale_by]
    is given the policy [amount]. *)
Definition policy_amount (r : rule) : result number :=
  let resource_label := rule_resource r in
  let rescale_by := default "amount" (rule_rescale_by r) in
  let rule_amount_field :=
    match rule_amount r with
    | Some a => Ok a
    | None => Raise (KeyError "amount")
    end in
  if String.eqb rescale_by "amount" then rule_amount_field
  else if String.eqb rescale_by "fit_to_usage" then
    res <- getitem (structure_resources s) resource_label ;;
    current_resource_limit <- getitem res "current" ;;
    lim <- getitem limits resource_label ;;
    boundary <- getitem lim "boundary" ;;
    metric <- getitem translator_dict resource_label ;;
    usage <- getitem usages metric ;;
    get_amount_from_fit_reduction current_resource_limit boundary usage
  else if String.eqb rescale_by "proportional"
          && String.eqb (rule_resource r) "energy" then
    get_amount_from_proportional_energy_rescaling s resource_label
  else rule_amount_field.

(** The amount after the rounding guard and, for an adjustable resource,
    after [adjust_amount]. *)
Definition final_amount (r : rule) : result number :=
  let resource_label := rule_resource r in
  amount <- policy_amount r ;;
  let amount := rounding_guard amount in
  if bool_decide (resource_label ∈ NON_ADJUSTABLE_RESOURCES) then Ok amount
  else
    structure_resources <- getitem (structure_resources s) resource_label ;;
    structure_limits <- getitem limits resource_label ;;
    adjust_amount amount structure_resources structure_limits.

(** The block under [if amount != 0]: the request is built and appended. *)
Definition emit_request (st : requests_state) (resource_label : string)
  (amount : number) : result unit * requests_state :=
  match generate_request_name amount resource_label with
  | Raise e => (Raise e, st)
  | Ok action =>
    let tick := clock_tick st in
    let req := generate_request s amount resource_label action tick in
    let st1 := {| generated_requests := generated_requests st;
                  events_to_remove := events_to_remove st;
                  clock_tick := S tick |} in
    let energy := String.eqb resource_label "energy" in
    let resource := if energy then "cpu" else request_resource req in
    let for_energy := if energy then Some true else None in
    let with_host (host ip port : option string) :=
      {| request_type := request_type req;
         request_resource := resource;
         request_amount := request_amount req;
         request_structure := request_structure req;
         request_action := request_action req;
         request_timestamp := request_timestamp req;
         request_structure_type := request_structure_type req;
         request_for_energy := for_energy;
         request_host := host;
         request_host_rescaler_ip := ip;
         request_host_rescaler_port := port |} in
    let append (q : request) :=
      (Ok tt, {| generated_requests := generated_requests st ++ [q];
                 events_to_remove := events_to_remove st;
                 clock_tick := S tick |}) in
    if is_container s then
      match structure_host s, structure_host_rescaler_ip s,
            structure_host_rescaler_port s with
      | Some host, Some ip, Some port =>
        append (with_host (Some host) (Some ip) (Some port))
      | None, _, _ => (Raise (KeyError "host"), st1)
      | _, None, _ => (Raise (KeyError "host_rescaler_ip"), st1)
      | _, _, None => (Raise (KeyError "host_rescaler_port"), st1)
      end
    else append (with_host None None None)
  end.

(** The last three statements of the body: the events that triggered the
    rule are booked for removal. *)
Definition book_events_to_remove (st : requests_state) (r : rule)
  (reduced : scale_counters) : result unit * requests_state :=
  match generate_event_name reduced (rule_resource r) with
  | Raise e => (Raise e, st)
  | Ok event_name =>
    let booked :=
      match events_to_remove st !! event_name with
      | Some _ => events_to_remove st
      | None => <[event_name := 0]> (events_to_remove st)
      end in
    let with_booked (m : gmap string Z) :=
      {| generated_requests := generated_requests st;
         events_to_remove := m;
         clock_tick := clock_tick st |} in
    match rule_events_to_remove r with
    | None => (Raise (KeyError "events_to_remove"), with_booked booked)
    | Some n =>
      (Ok tt, with_booked (<[event_name := default 0 (booked !! event_name) + n]> booked))
    end
  end.

(** The [try] block of one iteration of the loop over the rules. *)
Definition rule_body (st : requests_state) (r : rule)
  : result unit * requests_state :=
  let resource_label := rule_resource r in
  if rule_fires r then
    match no_current_value resource_label with
    | Raise e => (Raise e, st)
    | Ok true => (Ok tt, st)          (* continue *)
    | Ok false =>
      match final_amount r with
      | Raise e => (Raise e, st)
      | Ok amount =>
        let '(emitted, st1) :=
          if negb (Num.eqb amount (Int 0))
          then emit_request st resource_label amount
          else (Ok tt, st) in
        match emitted with
        | Raise e => (Raise e, st1)
        | Ok _ =>
          match events !! resource_label with
          | Some reduced => book_events_to_remove st1 r reduced
          | None => (Raise (KeyError resource_label), st1)
          end
        end
      end
    end
  else (Ok tt, st).

(** One iteration with its handler: a [KeyError] is logged and the loop goes
    on with what the iteration had done; any other exception leaves the
    function. *)
Definition match_rule (acc : result requests_state) (r : rule)
  : result requests_state :=
  st <- acc ;;
  match rule_body st r with
  | (Ok _, st') => Ok st'
  | (Raise (KeyError _), st') => Ok st'
  | (Raise e, _) => Raise e
  end.

(** [match_rules_and_events], from clock reading number [tick] on. *)
Definition match_rules_and_events (rules : list rule) (tick : nat)
  : result requests_state :=
  foldl match_rule
    (Ok {| generated_requests := []; events_to_remove := ∅; clock_tick := tick |})
    rules.

End Rule.

End Externals.

End Guardian.

(** * The CouchDB facade: updates under optimistic concurrency *)

Module CouchDBServer.

Definition MAX_UPDATE_TRIES : Z := 5.

(** A document: its [_id], its revision token [_rev], and the other fields. *)
Record document : Type := MkDocument {
  doc_id : string;
  doc_rev : string;
  doc_fields : gmap string string
}.

(** What the store answers to one [POST] of the document.  With a conflict
    comes the revision the store holds, which the facade reads back with
    [find_documents_by_matches(database, {"_id": doc["_id"]})[0]["_rev"]];
    that query is taken to succeed and to find the document.  [StatusOther]
    stands for the codes other than 200, 409 and 404. *)
Inductive response : Type :=
| Status200
| Status409 (stored_rev : string)
| Status404
| StatusOther (code : Z).

(** [r.raise_for_status()]: an [HTTPError] for the codes from 400 to 599,
    nothing for the others. *)
Definition raise_for_status (code : Z) : result (option bool) :=
  if (400 <=? code) && (code <? 600) then Raise (HTTPError code) else Ok None.

(** How a call ends: what it returns or raises ([Some true] for [True],
    [None] for a call that falls off its end), the caller's document as
    the call leaves it, the pauses taken in seconds, and the number of
    requests posted. *)
Record update_end : Type := MkUpdateEnd {
  returned : result (option bool);
  doc_after : document;
  sleeps : list Z;
  posts : nat
}.

Definition posted (e : update_end) : update_end :=
  {| returned := returned e; doc_after := doc_after e;
     sleeps := sleeps e; posts := S (posts e) |}.

Definition slept (seconds : Z) (e : update_end) : update_end :=
  {| returned := returned e; doc_after := doc_after e;
     sleeps := seconds :: sleeps e; posts := posts e |}.

(** [__resilient_update_doc(database, doc, previous_tries, time_backoff_seconds)]
    against a store that gives the [answers] in turn; [None] when the
    answers run out before the call ends.  The recursive calls pass
    [previous_tries + 1] and leave [time_backoff_seconds] at its default.
    The depth that the interpreter allows to the recursion is not part of
    the embedding. *)
Fixpoint resilient_update_doc (answers : list response) (doc : document)
  (previous_tries time_backoff_seconds : Z) : option update_end :=
  match answers with
  | [] => None
  | r :: answers' =>
    posted <$>
    match r with
    | Status200 => Some (MkUpdateEnd (Ok (Some true)) doc [] 0)
    | Status409 stored_rev =>
      if (0 <=? previous_tries) && (previous_tries <? MAX_UPDATE_TRIES) then
        let doc' := {| doc_id := doc_id doc; doc_rev := stored_rev;
                       doc_fields := doc_fields doc |} in
        resilient_update_doc answers' doc' (previous_tries + 1) 2
      else Some (MkUpdateEnd (raise_for_status 409) doc [] 0)
    | Status404 =>
      slept time_backoff_seconds <$>
        resilient_update_doc answers' doc (previous_tries + 1) 2
    | StatusOther code => Some (MkUpdateEnd (raise_for_status code) doc [] 0)
    end
  end.

(** [update_structure], [update_limit], [update_rule], [update_service]:
    the call with its defaults. *)
Definition update_doc (answers : list response) (doc : document)
  : option update_end :=
  resilient_update_doc answers doc 0 2.

(** ** Deleting the events that a rule has used *)

(** An event document as [get_all_database_docs] returns it, with the
    four fields that [delete_num_events_by_structure] reads. *)
Record event_document : Type := MkEventDocument {
  event_doc_id : string;
  event_doc_rev : string;
  event_doc_structure : string;
  event_doc_name : string
}.

(** [__delete_doc], from the status code of the answer to its [DELETE]:
    [True] on 200, otherwise what [raise_for_status] does. *)
Definition delete_doc (code : Z) : result (option bool) :=
  if code =? 200 then Ok (Some true) else raise_for_status code.

(** The loop of [delete_num_events_by_structure] as it stands after some
    events: whether it has raised, the counter [num_deleted], and the
    [DELETE] requests sent so far, each with the [_id] and the [_rev] it
    names. *)
Record delete_state : Type := MkDeleteState {
  delete_ended : result unit;
  num_deleted : Z;
  deletes_sent : list (string * string)
}.

(** One iteration.  [status k] is the status code that the store answers
    to the [k]-th [DELETE] of the call. *)
Definition delete_event_step (status : nat → Z) (s : Guardian.structure)
  (event_name : string) (event_num : Z)
  (acc : delete_state) (ev : event_document) : delete_state :=
  match delete_ended acc with
  | Raise _ => acc
  | Ok _ =>
    if String.eqb (event_doc_structure ev) (Guardian.structure_name s)
       && String.eqb (event_doc_name ev) event_name
       && (num_deleted acc <? event_num)
    then
      let sent := deletes_sent acc ++ [(event_doc_id ev, event_doc_rev ev)] in
      match delete_doc (status (length (deletes_sent acc))) with
      | Raise e => {| delete_ended := Raise e;
                      num_deleted := num_deleted acc;
                      deletes_sent := sent |}
      | Ok _ => {| delete_ended := Ok tt;
                   num_deleted := num_deleted acc + 1;
                   deletes_sent := sent |}
      end
    else acc
  end.

(** [delete_num_events_by_structure(structure, event_name, event_num)] on
    the documents [events] that [get_all_database_docs] has returned. *)
Definition delete_num_events_by_structure (status : nat → Z)
  (events : list event_document) (s : Guardian.structure) (event_name : string)
  (event_num : Z) : delete_state :=
  foldl (delete_event_step status s event_name event_num)
    {| delete_ended := Ok tt; num_deleted := 0; deletes_sent := [] |} events.

End CouchDBServer.

(** * The vocabulary of the statements

    The predicates, the sums and the sample data that the theorems below
    are stated with. *)

Import Guardian.
Import CouchDBServer.

(** The state that the validation accepts for a resource: every value is
    there, [current <= max], [upper <= current], [lower <= upper], and
    [upper] is exactly one boundary under [current]. *)
Definition valid_resource_state
  (r l : gmap string (gmap string Z)) (resource : string) : Prop :=
  ∃ res lim mx cur mn up lo b,
    r !! resource = Some res ∧ l !! resource = Some lim ∧
    res !! "max" = Some mx ∧ res !! "current" = Some cur ∧
    res !! "min" = Some mn ∧
    lim !! "upper" = Some up ∧ lim !! "lower" = Some lo ∧
    lim !! "boundary" = Some b ∧
    cur <= mx ∧ up <= cur ∧ lo <= up ∧ up = cur - b.

(** What the loop over one resource may have done to the dictionaries:
    nothing, or the repair. *)
Definition adjusted (resource : string) (st st' : container_state) : Prop :=
  st' = st ∨ repair_limits st resource = (Ok tt, st').

(** The frame of a run: [resources] is as it was, the limits of a resource
    outside [R] are as they were, no entry appears or disappears, and inside
    an entry every field but [upper] and [lower] is as it was. *)
Definition writes_only (R : list string) (st st' : container_state) : Prop :=
  resources st' = resources st ∧
  (∀ res, res ∉ R → limits st' !! res = limits st !! res) ∧
  (∀ res, is_Some (limits st' !! res) ↔ is_Some (limits st !! res)) ∧
  (∀ res key, key ≠ "upper" → key ≠ "lower" →
     limits st' !! res ≫= (.!! key) = limits st !! res ≫= (.!! key)).

(** An entry as the repair writes it: [lower] one boundary under [upper]. *)
Definition repaired_entry (o : option (gmap string Z)) : Prop :=
  ∃ lim up lo b, o = Some lim ∧ lim !! "upper" = Some up ∧
    lim !! "lower" = Some lo ∧ lim !! "boundary" = Some b ∧ lo = up - b.

(** The container of the test suite: cpu at 140 of 200, limits 80 and 120
    around a boundary of 20. *)
Definition node0_resources : gmap string (gmap string Z) :=
  {[ "cpu" := <["min" := 50]> (<["max" := 200]> {[ "current" := 140 ]}) ]}.

Definition node0_limits : gmap string (gmap string Z) :=
  {[ "cpu" := <["lower" := 80]> (<["upper" := 120]> {[ "boundary" := 20 ]}) ]}.

(** Limits that the validation refuses: [upper] above [current]. *)
Definition broken_limits : gmap string (gmap string Z) :=
  {[ "cpu" := <["lower" := 200]> (<["upper" := 200]> {[ "boundary" := 20 ]}) ]}.

Definition mended_limits : gmap string (gmap string Z) :=
  {[ "cpu" := <["lower" := 100]> (<["upper" := 120]> {[ "boundary" := 20 ]}) ]}.

(** The state that iteration number [k] of the loop starts from (counting
    from 0), when the loop gets that far: every iteration before it has
    refused the state with a [ValueError] and repaired it. *)
Fixpoint attempt_state (resource : string) (st : container_state) (k : nat)
  : option container_state :=
  match k with
  | O => Some st
  | S k' =>
    match attempt_state resource st k' with
    | Some s =>
      match check_invalid_container_state (resources s) (limits s) resource with
      | Raise ValueError =>
        match repair_limits s resource with
        | (Ok _, s') => Some s'
        | (Raise _, _) => None
        end
      | _ => None
      end
    | None => None
    end
  end.

(** What the validation answers at iteration number [k]. *)
Definition attempt (resource : string) (st : container_state) (k : nat)
  : option (result unit) :=
  s ← attempt_state resource st k;
  Some (check_invalid_container_state (resources s) (limits s) resource).

(** A request that satisfies the clamping property for a structure and
    its limits: when the request is not one made for [energy] and the
    chain [min <= lower <= current <= max] holds for its resource, the
    amount keeps [current] within [min] and [max] and [lower] at [min] or
    above. *)
Definition clamped_for (s : structure) (limits : gmap string (gmap string Z))
  (q : request) : Prop :=
  request_for_energy q = None →
  ∀ sr sl mn cur mx lo,
    structure_resources s !! request_resource q = Some sr →
    limits !! request_resource q = Some sl →
    sr !! "min" = Some mn → sr !! "current" = Some cur →
    sr !! "max" = Some mx → sl !! "lower" = Some lo →
    mn <= lo → lo <= cur → cur <= mx →
    mn <= cur + request_amount q <= mx ∧ lo + request_amount q >= mn.

(** Stand-ins for what the Guardian takes from outside, used by the worked
    scenarios and by nothing else: rules that ask for a number of [up] or
    [down] events, names built from the resource, and a clock that stands
    still. *)
Inductive sample_rule : Type :=
| UpAtLeast (n : Z)
| DownAtLeast (n : Z).

Definition sample_logic (e : sample_rule) (c : scale_counters) : bool :=
  match e with
  | UpAtLeast n => n <=? up c
  | DownAtLeast n => n <=? down c
  end.

Definition sample_event_name (c : scale_counters) (resource : string)
  : result string :=
  if 0 <? down c then Ok (resource ++ "Underuse")%string
  else if 0 <? up c then Ok (resource ++ "Bottleneck")%string
  else Raise ValueError.

Definition sample_request_name (amount : number) (resource : string)
  : result string :=
  if Num.int amount <? 0 then Ok (resource ++ "RescaleDown")%string
  else Ok (resource ++ "RescaleUp")%string.

Definition sample_clock (k : nat) : Q := 1546300800 # 1.

Definition sample_match_rules_and_events :=
  match_rules_and_events sample_clock sample_rule sample_logic
    sample_event_name sample_request_name (Int 5).

Definition container (resources : gmap string (gmap string Z)) : structure :=
  {| structure_name := "node0";
     structure_subtype := "container";
     structure_resources := resources;
     structure_host := Some "c14-13";
     structure_host_rescaler_ip := Some "c14-13";
     structure_host_rescaler_port := Some "8000" |}.

Definition cpu_request (amount : Z) (action : string) : request :=
  {| request_type := "request";
     request_resource := "cpu";
     request_amount := amount;
     request_structure := "node0";
     request_action := action;
     request_timestamp := 1546300800;
     request_structure_type := "container";
     request_for_energy := None;
     request_host := Some "c14-13";
     request_host_rescaler_ip := Some "c14-13";
     request_host_rescaler_port := Some "8000" |}.

(** Rescale up to fit the usage once three [up] events are there. *)
Definition CpuRescaleUp : rule sample_rule :=
  {| rule_name := "CpuRescaleUp";
     rule_active := true;
     rule_resource := "cpu";
     rule_rule := UpAtLeast 3;
     rule_generates := "requests";
     rule_rescale_by := Some "fit_to_usage";
     rule_amount := Some (Int 75);
     rule_events_to_remove := Some 3 |}.

(** Rescale down by ten shares once three [down] events are there. *)
Definition CpuRescaleDown : rule sample_rule :=
  {| rule_name := "CpuRescaleDown";
     rule_active := true;
     rule_resource := "cpu";
     rule_rule := DownAtLeast 3;
     rule_generates := "requests";
     rule_rescale_by := Some "amount";
     rule_amount := Some (Int (-10));
     rule_events_to_remove := Some 3 |}.

Definition three_up : gmap string scale_counters :=
  {[ "cpu" := {| down := 0; up := 3 |} ]}.

Definition three_down : gmap string scale_counters :=
  {[ "cpu" := {| down := 3; up := 0 |} ]}.

Definition usage_180 : gmap string number :=
  {[ "structure.cpu.usage" := Int 180 ]}.

(** A container at its maximum, with its limits one and two boundaries
    under it: a state that the repair accepts, with [lower] under [min]. *)
Definition tight_resources : gmap string (gmap string Z) :=
  {[ "cpu" := <["min" := 50]> (<["max" := 100]> {[ "current" := 100 ]}) ]}.

Definition tight_limits : gmap string (gmap string Z) :=
  {[ "cpu" := <["lower" := 40]> (<["upper" := 70]> {[ "boundary" := 30 ]}) ]}.

(** The container of the test suite at its maximum of 200. *)
Definition full_resources : gmap string (gmap string Z) :=
  {[ "cpu" := <["min" := 50]> (<["max" := 200]> {[ "current" := 200 ]}) ]}.

(** An application under an energy cap of 20 W that uses 12 W, its cpu at
    190 of 200, and the rule that turns the headroom into cpu shares. *)
Definition application (resources : gmap string (gmap string Z)) : structure :=
  {| structure_name := "app0";
     structure_subtype := "application";
     structure_resources := resources;
     structure_host := None;
     structure_host_rescaler_ip := None;
     structure_host_rescaler_port := None |}.

Definition capped_resources : gmap string (gmap string Z) :=
  <["energy" := <["min" := 0]> (<["max" := 20]> {[ "usage" := 12 ]})]>
    {[ "cpu" := <["min" := 50]> (<["max" := 200]> {[ "current" := 190 ]}) ]}.

Definition capped_limits : gmap string (gmap string Z) :=
  {[ "cpu" := <["lower" := 150]> (<["upper" := 170]> {[ "boundary" := 20 ]}) ]}.

Definition EnergyRescaleUp : rule sample_rule :=
  {| rule_name := "EnergyRescaleUp";
     rule_active := true;
     rule_resource := "energy";
     rule_rule := UpAtLeast 3;
     rule_generates := "requests";
     rule_rescale_by := Some "proportional";
     rule_amount := None;
     rule_events_to_remove := Some 3 |}.

(** Componentwise sum of two pairs of counters, and of two reductions: a
    resource that only one side has counts as zero on the other. *)
Definition counters_plus (a b : scale_counters) : scale_counters :=
  {| down := down a + down b; up := up a + up b |}.

Definition merge_counters (m1 m2 : gmap string scale_counters)
  : gmap string scale_counters :=
  union_with (λ a b, Some (counters_plus a b)) m1 m2.

(** An event whose counters are keyed by [up] and [down] and nothing else. *)
Definition up_down_event (ev : event) : Prop :=
  ∀ key, is_Some (event_scale ev !! key) → key = "up" ∨ key = "down".

(** What one counter, and a list of them, adds. *)
Definition key_delta (kv : string * Z) : scale_counters :=
  if String.eqb kv.1 "down" then {| down := kv.2; up := 0 |}
  else if String.eqb kv.1 "up" then {| down := 0; up := kv.2 |}
  else zero_counters.

Definition event_delta (ev : event) : scale_counters :=
  foldr (λ kv acc, counters_plus (key_delta kv) acc) zero_counters
    (map_to_list (event_scale ev)).

(** The reduction of one well-formed event, without the exceptions. *)
Definition reduce_step (m : gmap string scale_counters) (ev : event)
  : gmap string scale_counters :=
  <[event_resource ev :=
      counters_plus (default zero_counters (m !! event_resource ev))
        (event_delta ev)]> m.

Definition up_event (resource : string) (n : Z) : event :=
  {| event_name := (resource ++ "Bottleneck")%string;
     event_resource := resource;
     event_structure := "node0";
     event_scale := {[ "up" := n ]};
     event_timestamp := 1546300800 |}.

Definition down_event (resource : string) (n : Z) : event :=
  {| event_name := (resource ++ "Underuse")%string;
     event_resource := resource;
     event_structure := "node0";
     event_scale := {[ "down" := n ]};
     event_timestamp := 1546300800 |}.

(** An event is stale at the time [now] when it is older than the timeout. *)
Definition stale (now : Q) (event_timeout : Z) (ev : event) : Prop :=
  (inject_Z (event_timestamp ev) < now - inject_Z event_timeout)%Q.

#[local] Instance stale_dec now event_timeout ev :
  Decision (stale now event_timeout ev).
Proof.
  unfold stale.
  destruct (Qlt_le_dec (inject_Z (event_timestamp ev))
              (now - inject_Z event_timeout)) as [H|H].
  - by left.
  - right. by apply Qle_not_lt.
Defined.

(** The events of a call, each with the number of the clock reading that
    the loop takes when it comes to it. *)
Definition with_readings (tick : nat) (evs : list event) : list (nat * event) :=
  zip (seq tick (length evs)) evs.

(** A clock that passes, between two readings, the instant at which an
    event of 1546300800 ages out under a timeout of 40 seconds. *)
Definition passing_clock (k : nat) : Q :=
  match k with
  | O => 3092601679 # 2
  | S _ => 3092601681 # 2
  end.

Definition with_rev (doc : document) (rev : string) : document :=
  {| doc_id := doc_id doc; doc_rev := rev; doc_fields := doc_fields doc |}.

Definition limits_document : document :=
  {| doc_id := "node0"; doc_rev := "1-a"; doc_fields := {[ "type" := "limit" ]} |}.

(** A state that [adjust_container_state] can bring to an accepted one:
    the resource is in both dictionaries with its [max], [current], [min]
    and [boundary], [current] is not above [max] and the boundary is not
    negative.  Nothing is asked of [upper] and [lower]. *)
Definition repairable_state
  (r l : gmap string (gmap string Z)) (resource : string) : Prop :=
  ∃ res lim mx cur mn b,
    r !! resource = Some res ∧ l !! resource = Some lim ∧
    res !! "max" = Some mx ∧ res !! "current" = Some cur ∧
    res !! "min" = Some mn ∧ lim !! "boundary" = Some b ∧
    cur <= mx ∧ 0 <= b.

(** Limits with a boundary below zero. *)
Definition inverted_limits : gmap string (gmap string Z) :=
  {[ "cpu" := <["lower" := 80]> (<["upper" := 120]> {[ "boundary" := -20 ]}) ]}.

(** The container of the test suite with more applied than its maximum. *)
Definition overshot_resources : gmap string (gmap string Z) :=
  {[ "cpu" := <["min" := 50]> (<["max" := 200]> {[ "current" := 240 ]}) ]}.

(** The request that [match_rules_and_events] appends for a rule on the
    resource [label] with the final amount [amount], under the action name
    [action], when the clock gives [now]: a rule on [energy] goes out under
    [cpu] and is marked [for_energy], and a container adds its host. *)
Definition emitted_request (s : structure) (label : string) (amount : number)
  (action : string) (now : Q) : request :=
  let energy := String.eqb label "energy" in
  {| request_type := "request";
     request_resource := if energy then "cpu" else label;
     request_amount := Num.int amount;
     request_structure := structure_name s;
     request_action := action;
     request_timestamp := Num.truncate now;
     request_structure_type := structure_subtype s;
     request_for_energy := if energy then Some true else None;
     request_host := if is_container s then structure_host s else None;
     request_host_rescaler_ip :=
       if is_container s then structure_host_rescaler_ip s else None;
     request_host_rescaler_port :=
       if is_container s then structure_host_rescaler_port s else None |}.

(** A number that is a Python [int]. *)
Definition integer (a : number) : Prop := ∃ z, a = Int z.

(** The requests that a run may hold for the rule [r]: each built by
    [emitted_request] for the resource of the rule, when the rule fires,
    from a final amount that is not zero. *)
Definition emitted_for (rule_expr : Type)
  (jsonLogic : rule_expr → scale_counters → bool)
  (generate_request_name : number → string → result string)
  (cpu_shares_per_watt : number) (s : structure)
  (events : gmap string scale_counters)
  (limits : gmap string (gmap string Z)) (usages : gmap string number)
  (r : rule rule_expr) (q : request) : Prop :=
  ∃ amount action now,
    rule_fires rule_expr jsonLogic events r = true ∧
    Guardian.final_amount rule_expr cpu_shares_per_watt s limits usages r
      = Ok amount ∧
    Num.eqb amount (Int 0) = false ∧
    generate_request_name amount (rule_resource _ r) = Ok action ∧
    q = emitted_request s (rule_resource _ r) amount action now.

(** What the first scenario of the test suite leaves: one request for 60
    shares more and the three events booked. *)
Definition cpu_up_run : requests_state :=
  {| generated_requests := [cpu_request 60 "cpuRescaleUp"];
     events_to_remove := {[ "cpuBottleneck" := 3 ]};
     clock_tick := 1 |}.

(** Three [up] events on the energy of the capped application, and what
    its rule leaves: a request for 40 cpu shares, marked [for_energy]. *)
Definition energy_up : gmap string scale_counters :=
  {[ "energy" := {| down := 0; up := 3 |} ]}.

Definition energy_up_run : requests_state :=
  {| generated_requests :=
       [{| request_type := "request";
           request_resource := "cpu";
           request_amount := 40;
           request_structure := "app0";
           request_action := "energyRescaleUp";
           request_timestamp := 1546300800;
           request_structure_type := "application";
           request_for_energy := Some true;
           request_host := None;
           request_host_rescaler_ip := None;
           request_host_rescaler_port := None |}];
     events_to_remove := {[ "energyBottleneck" := 3 ]};
     clock_tick := 1 |}.

(** The counter that an event holds under [key], zero when it holds none,
    and the sum of these counters over the events of a resource. *)
Definition scale_of (key : string) (ev : event) : Z :=
  default 0 (event_scale ev !! key).

Definition scale_total (key resource : string) (evs : list event) : Z :=
  foldr Z.add 0
    (scale_of key <$> filter (λ ev, event_resource ev = resource) evs).

Definition resource_total (resource : string) (evs : list event)
  : scale_counters :=
  {| down := scale_total "down" resource evs;
     up := scale_total "up" resource evs |}.

(** Equality of answers is decidable. *)
#[local] Instance response_eq_dec : EqDecision response.
Proof. solve_decision. Defined.

(** The events of a structure under a name, and what a [DELETE] names of
    an event. *)
Definition event_of (s : structure) (event_name : string)
  (ev : event_document) : Prop :=
  event_doc_structure ev = structure_name s ∧ event_doc_name ev = event_name.

#[local] Instance event_of_dec s event_name ev :
  Decision (event_of s event_name ev).
Proof. unfold event_of. apply _. Defined.

Definition delete_target (ev : event_document) : string * string :=
  (event_doc_id ev, event_doc_rev ev).

(** A conflict, a missing database and a success, and how the update of
    the limits of [node0] ends against them. *)
Definition conflict_then_missing : list response :=
  [Status409 "2-b"; Status404; Status200].

Definition conflict_then_missing_end : update_end :=
  {| returned := Ok (Some true);
     doc_after := with_rev limits_document "2-b";
     sleeps := [2];
     posts := 3 |}.

(** Six conflicts in a row. *)
Definition six_conflicts : list response :=
  Status409 <$> ["2-b"; "3-c"; "4-d"; "5-e"; "6-f"; "7-g"].

(** Four stored events, three of them bottlenecks of [node0], a store that
    accepts every [DELETE] and one that refuses the second. *)
Definition stored_events : list event_document :=
  [ {| event_doc_id := "e1"; event_doc_rev := "1-a";
       event_doc_structure := "node0"; event_doc_name := "cpuBottleneck" |};
    {| event_doc_id := "e2"; event_doc_rev := "1-b";
       event_doc_structure := "node1"; event_doc_name := "cpuBottleneck" |};
    {| event_doc_id := "e3"; event_doc_rev := "1-c";
       event_doc_structure := "node0"; event_doc_name := "cpuBottleneck" |};
    {| event_doc_id := "e4"; event_doc_rev := "1-d";
       event_doc_structure := "node0"; event_doc_name := "cpuBottleneck" |} ].

Definition accepting_store (k : nat) : Z := 200.

Definition refusing_store (k : nat) : Z :=
  match k with
  | 1%nat => 409
  | _ => 200
  end.

(** * Properties of the state repair ([adjust_container_state]) *)

Lemma check_invalid_values_ok v1 l1 v2 l2 res :
  check_invalid_values v1 l1 v2 l2 res = Ok tt ↔ v1 <= v2.
Proof.
  unfold check_invalid_values.
  destruct (Z.ltb_spec v2 v1); simpl.
  - split; [|lia]. repeat case_match; discriminate.
  - split; [lia|done].
Qed.

Lemma check_ok_valid r l resource :
  check_invalid_container_state r l resource = Ok tt ↔
  valid_resource_state r l resource.
Proof.
  unfold check_invalid_container_state, valid_resource_state, try_get_value,
    getitem, check_unset_values.
  split.
  - intros H.
    destruct (r !! resource) as [res|]; [|discriminate].
    destruct (l !! resource) as [lim|]; [|discriminate].
    destruct (lim !! "boundary") as [b|] eqn:Eb; simpl in H; [|discriminate].
    destruct (res !! "max") as [mx|] eqn:Emx; simpl in H; [|discriminate].
    destruct (res !! "current") as [cur|] eqn:Ecur; simpl in H; [|discriminate].
    destruct (lim !! "upper") as [up|] eqn:Eup; simpl in H; [|discriminate].
    destruct (lim !! "lower") as [lo|] eqn:Elo; simpl in H; [|discriminate].
    destruct (res !! "min") as [mn|] eqn:Emn; simpl in H; [|discriminate].
    destruct (check_invalid_values cur _ mx _ _) as [[]|] eqn:E1;
      simpl in H; [|discriminate].
    destruct (check_invalid_values up _ cur _ _) as [[]|] eqn:E2;
      simpl in H; [|discriminate].
    destruct (check_invalid_values lo _ up _ _) as [[]|] eqn:E3;
      simpl in H; [|discriminate].
    apply check_invalid_values_ok in E1, E2, E3.
    destruct (Z.ltb_spec (cur - b) up); [discriminate|].
    destruct (Z.ltb_spec up (cur - b)); [discriminate|].
    exists res, lim, mx, cur, mn, up, lo, b. repeat split; auto; lia.
  - intros (res & lim & mx & cur & mn & up & lo & b & -> & -> & -> & -> & ->
            & -> & -> & -> & H1 & H2 & H3 & H4).
    simpl.
    rewrite (proj2 (check_invalid_values_ok cur "current" mx "max" resource) H1).
    rewrite (proj2 (check_invalid_values_ok up "upper" cur "current" resource) H2).
    rewrite (proj2 (check_invalid_values_ok lo "lower" up "upper" resource) H3).
    simpl.
    destruct (Z.ltb_spec (cur - b) up); [lia|].
    destruct (Z.ltb_spec up (cur - b)); [lia|]. done.
Qed.

Lemma repair_limits_ok st resource st' :
  repair_limits st resource = (Ok tt, st') ↔
  ∃ lim b res cur,
    limits st !! resource = Some lim ∧ lim !! "boundary" = Some b ∧
    resources st !! resource = Some res ∧ res !! "current" = Some cur ∧
    st' = {| resources := resources st;
             limits := <[resource :=
                 <["lower" := cur - b - b]> (<["upper" := cur - b]> lim)]>
               (limits st) |}.
Proof.
  unfold repair_limits, getitem.
  destruct (limits st !! resource) as [lim|] eqn:El; simpl.
  2: { split; [discriminate|]. intros (? & ? & ? & ? & ? & _); discriminate. }
  destruct (lim !! "boundary") as [b|] eqn:Eb; simpl.
  2: { split; [discriminate|].
       intros (? & ? & ? & ? & [= <-] & ? & _); congruence. }
  destruct (resources st !! resource) as [res|] eqn:Er; simpl.
  2: { split; [discriminate|]. intros (? & ? & ? & ? & _ & _ & ? & _); discriminate. }
  destruct (res !! "current") as [cur|] eqn:Ec; simpl.
  2: { split; [discriminate|].
       intros (? & ? & ? & ? & _ & _ & [= <-] & ? & _); congruence. }
  rewrite insert_insert_eq. split.
  - intros [= <-]. exists lim, b, res, cur. done.
  - intros (? & ? & ? & ? & [= <-] & Hb & [= <-] & Hc & ->).
    rewrite Eb in Hb. rewrite Ec in Hc. by simplify_eq.
Qed.

(** A failed repair changes nothing. *)
Lemma repair_limits_raise st resource e st' :
  repair_limits st resource = (Raise e, st') → st' = st.
Proof.
  unfold repair_limits.
  destruct (_ <- getitem (limits st) resource ;; _) as [[[lim b] cur]|];
    by intros [= <-].
Qed.

(** The repair raises nothing but a [KeyError]. *)
Lemma repair_limits_raise_key st resource e st' :
  repair_limits st resource = (Raise e, st') → ∃ key, e = KeyError key.
Proof.
  unfold repair_limits, getitem.
  destruct (limits st !! resource) as [lim|]; simpl; [|intros [= <- _]; eauto].
  destruct (lim !! "boundary"); simpl; [|intros [= <- _]; eauto].
  destruct (resources st !! resource) as [res|]; simpl; [|intros [= <- _]; eauto].
  destruct (res !! "current"); simpl; [discriminate|intros [= <- _]; eauto].
Qed.

(** The repair is idempotent: it depends on [current] and [boundary] alone,
    and writes neither. *)
Lemma repair_limits_idem st resource st' :
  repair_limits st resource = (Ok tt, st') →
  repair_limits st' resource = (Ok tt, st').
Proof.
  intros (lim & b & res & cur & Hl & Hb & Hr & Hc & ->)%repair_limits_ok.
  apply repair_limits_ok. simpl.
  exists (<["lower" := cur - b - b]> (<["upper" := cur - b]> lim)), b, res, cur.
  rewrite lookup_insert_eq. repeat split; auto.
  - by rewrite !lookup_insert_ne.
  - f_equal. rewrite insert_insert_eq. f_equal.
    apply map_eq. intros k. rewrite !lookup_insert.
    repeat case_decide; congruence.
Qed.

Lemma adjust_loop_unfold fuel resource st n errors :
  adjust_loop (S fuel) resource st n errors =
  if errors && (n <? 10) then
    let after_try (st' : container_state) (errors' : bool) :=
      if 10 <=? n + 1
      then Some (LoopEnd (Raise error_fixing_limits) st' (n + 1))
      else adjust_loop fuel resource st' (n + 1) errors' in
    match check_invalid_container_state (resources st) (limits st) resource with
    | Ok _ => after_try st false
    | Raise ValueError =>
      match repair_limits st resource with
      | (Ok _, st') => after_try st' errors
      | (Raise e, st') => Some (LoopEnd (Raise e) st' n)
      end
    | Raise e => Some (LoopEnd (Raise e) st n)
    end
  else Some (LoopEnd (Ok tt) st n).
Proof. reflexivity. Qed.

Lemma adjust_loop_done fuel resource st n :
  adjust_loop fuel resource st n false = Some (LoopEnd (Ok tt) st n).
Proof. by destruct fuel. Qed.

(** Once the repair has been applied and the state is still refused, every
    further iteration finds the same state, up to the tenth. *)
Lemma adjust_loop_stuck fuel resource st n :
  repair_limits st resource = (Ok tt, st) →
  check_invalid_container_state (resources st) (limits st) resource
    = Raise ValueError →
  0 <= n < 10 → (Z.to_nat (10 - n) <= fuel)%nat →
  adjust_loop fuel resource st n true
    = Some (LoopEnd (Raise error_fixing_limits) st 10).
Proof.
  intros Hrep Hchk. revert n.
  induction fuel as [|fuel IH]; intros n Hn Hfuel; [lia|].
  rewrite adjust_loop_unfold.
  replace (n <? 10) with true by (symmetry; apply Z.ltb_lt; lia).
  cbn [andb]. cbv zeta. rewrite Hchk, Hrep.
  destruct (Z.leb_spec 10 (n + 1)).
  - by replace (n + 1) with 10 by lia.
  - apply IH; lia.
Qed.

(** One iteration that is not the tenth. *)
Lemma adjust_loop_step fuel resource st n :
  0 <= n < 9 →
  adjust_loop (S fuel) resource st n true =
  match check_invalid_container_state (resources st) (limits st) resource with
  | Ok _ => Some (LoopEnd (Ok tt) st (n + 1))
  | Raise ValueError =>
    match repair_limits st resource with
    | (Ok _, st') => adjust_loop fuel resource st' (n + 1) true
    | (Raise e, st') => Some (LoopEnd (Raise e) st' n)
    end
  | Raise e => Some (LoopEnd (Raise e) st n)
  end.
Proof.
  intros Hn. rewrite adjust_loop_unfold.
  replace (n <? 10) with true by (symmetry; apply Z.ltb_lt; lia).
  replace (10 <=? n + 1) with false by (symmetry; apply Z.leb_gt; lia).
  cbn [andb]. cbv zeta.
  destruct (check_invalid_container_state _ _ _) as [[]|e];
    [apply adjust_loop_done|done].
Qed.

(** The loop over one resource in closed form: the state is validated at
    most twice. *)
Lemma adjust_resource_cases st resource :
  adjust_resource st resource =
  match check_invalid_container_state (resources st) (limits st) resource with
  | Ok _ => Some (LoopEnd (Ok tt) st 1)
  | Raise ValueError =>
    match repair_limits st resource with
    | (Ok _, st1) =>
      match check_invalid_container_state (resources st1) (limits st1) resource with
      | Ok _ => Some (LoopEnd (Ok tt) st1 2)
      | Raise ValueError => Some (LoopEnd (Raise error_fixing_limits) st1 10)
      | Raise e => Some (LoopEnd (Raise e) st1 1)
      end
    | (Raise e, st1) => Some (LoopEnd (Raise e) st1 0)
    end
  | Raise e => Some (LoopEnd (Raise e) st 0)
  end.
Proof.
  unfold adjust_resource. rewrite adjust_loop_step by lia.
  destruct (check_invalid_container_state (resources st) _ _) as [[]|e] eqn:Hc;
    [done|].
  destruct e; try reflexivity.
  destruct (repair_limits st resource) as [[[]|e] st1] eqn:Hr; [|reflexivity].
  destruct (check_invalid_container_state (resources st1) (limits st1) resource)
    as [[]|e] eqn:Hc1.
  - rewrite adjust_loop_step, Hc1 by lia. done.
  - destruct e.
    + apply adjust_loop_stuck; eauto using repair_limits_idem; lia.
    + rewrite adjust_loop_step, Hc1 by lia. done.
    + rewrite adjust_loop_step, Hc1 by lia. done.
    + rewrite adjust_loop_step, Hc1 by lia. done.
    + rewrite adjust_loop_step, Hc1 by lia. done.
Qed.

Lemma adjust_resource_adjusted st resource e :
  adjust_resource st resource = Some e → adjusted resource st (state_after e).
Proof.
  rewrite adjust_resource_cases. unfold adjusted.
  destruct (check_invalid_container_state (resources st) _ _) as [[]|e0];
    [intros [= <-]; by left|].
  destruct e0; try (intros [= <-]; by left).
  destruct (repair_limits st resource) as [[[]|e1] st1] eqn:Hr.
  - destruct (check_invalid_container_state (resources st1) _ _) as [[]|[]];
      intros [= <-]; by right.
  - apply repair_limits_raise in Hr as ->. intros [= <-]; by left.
Qed.

Lemma writes_only_refl R st : writes_only R st st.
Proof. by repeat split. Qed.

Lemma writes_only_trans R st1 st2 st3 :
  writes_only R st1 st2 → writes_only R st2 st3 → writes_only R st1 st3.
Proof.
  intros (Ha & Hb & Hc & Hd) (Ha' & Hb' & Hc' & Hd').
  split; [|split; [|split]].
  - congruence.
  - intros res Hres. rewrite Hb', Hb; auto.
  - intros res. by rewrite Hc', Hc.
  - intros res key H1 H2. rewrite Hd', Hd; auto.
Qed.

Lemma writes_only_mono R R' st st' :
  R ⊆ R' → writes_only R st st' → writes_only R' st st'.
Proof.
  intros Hsub (Ha & Hb & Hc & Hd). split; [done|]. split; [|done].
  intros res Hres. apply Hb. intros Hin. apply Hres. by apply Hsub.
Qed.

Lemma adjusted_writes_only resource st st' :
  adjusted resource st st' → writes_only [resource] st st'.
Proof.
  intros [->|H]; [apply writes_only_refl|].
  apply repair_limits_ok in H as (lim & b & res & cur & Hl & Hb & Hr & Hc & ->).
  split; [done|]. split; [|split]; simpl.
  - intros r Hr'. apply lookup_insert_ne. intros ->. apply Hr'.
    apply list_elem_of_here.
  - intros r. rewrite lookup_insert. case_decide; subst; [by rewrite Hl|done].
  - intros r key H1 H2. rewrite lookup_insert. case_decide; [subst|done].
    rewrite Hl. simpl. by rewrite !lookup_insert_ne.
Qed.

Lemma adjust_resources_writes_only R st out st' :
  adjust_resources st R = Some (out, st') → writes_only R st st'.
Proof.
  revert st. induction R as [|resource R IH]; intros st; simpl.
  - intros [= <- <-]. apply writes_only_refl.
  - destruct (adjust_resource st resource) as [[[[]|e] st1 n]|] eqn:Hloop;
      [| |discriminate];
      apply adjust_resource_adjusted, adjusted_writes_only in Hloop;
      simpl in Hloop.
    + intros H%IH. eapply writes_only_trans.
      * eapply writes_only_mono; [|exact Hloop].
        intros x ->%list_elem_of_singleton. apply list_elem_of_here.
      * eapply writes_only_mono; [|exact H].
        intros x Hx. by apply list_elem_of_further.
    + intros [= <- <-]. eapply writes_only_mono; [|exact Hloop].
      intros x ->%list_elem_of_singleton. apply list_elem_of_here.
Qed.

(** The loop over the resources never runs out of the ten iterations that
    [adjust_resource] unfolds. *)
Lemma adjust_resource_total st resource :
  ∃ e, adjust_resource st resource = Some e.
Proof.
  rewrite adjust_resource_cases.
  destruct (check_invalid_container_state (resources st) _ _) as [[]|[]]; eauto.
  destruct (repair_limits st resource) as [[[]|e1] st1]; eauto.
  destruct (check_invalid_container_state (resources st1) _ _) as [[]|[]]; eauto.
Qed.

Lemma adjust_resources_total R st :
  ∃ out st', adjust_resources st R = Some (out, st').
Proof.
  revert st. induction R as [|resource R IH]; intros st; simpl; [eauto|].
  destruct (adjust_resource_total st resource) as [[[[]|e] st1 n] ->]; eauto.
Qed.

(** A state that the validation accepts is left as it is. *)
Lemma adjust_resource_valid st resource :
  valid_resource_state (resources st) (limits st) resource →
  adjust_resource st resource = Some (LoopEnd (Ok tt) st 1).
Proof.
  intros H%check_ok_valid. by rewrite adjust_resource_cases, H.
Qed.

(** A normal exit of the loop leaves a state that the validation accepts. *)
Lemma adjust_resource_ok_valid st resource st' n :
  adjust_resource st resource = Some (LoopEnd (Ok tt) st' n) →
  valid_resource_state (resources st') (limits st') resource.
Proof.
  rewrite adjust_resource_cases.
  destruct (check_invalid_container_state (resources st) _ _) as [[]|e0] eqn:Hc.
  - intros [= <- <-]. by apply check_ok_valid.
  - destruct e0; try discriminate.
    destruct (repair_limits st resource) as [[[]|e1] st1]; [|discriminate].
    destruct (check_invalid_container_state (resources st1) _ _)
      as [[]|[]] eqn:Hc1; try discriminate.
    intros [= <- <-]. by apply check_ok_valid.
Qed.

Lemma valid_resource_state_frame R st st' resource :
  writes_only R st st' → resource ∉ R →
  valid_resource_state (resources st) (limits st) resource →
  valid_resource_state (resources st') (limits st') resource.
Proof.
  intros (Ha & Hb & _) Hout. unfold valid_resource_state.
  by rewrite Ha, (Hb _ Hout).
Qed.

Lemma adjust_resources_keep_valid R st out st' resource :
  adjust_resources st R = Some (out, st') →
  valid_resource_state (resources st) (limits st) resource →
  valid_resource_state (resources st') (limits st') resource.
Proof.
  revert st. induction R as [|res R IH]; intros st; simpl.
  - by intros [= <- <-].
  - intros Hrun Hvalid.
    assert (∀ e, adjust_resource st res = Some e →
      valid_resource_state (resources (state_after e))
        (limits (state_after e)) resource) as Hstep.
    { intros e He. destruct (decide (res = resource)) as [->|Hne].
      - rewrite (adjust_resource_valid _ _ Hvalid) in He. by injection He as <-.
      - eapply valid_resource_state_frame; [|
          |exact Hvalid].
        + by apply adjusted_writes_only, adjust_resource_adjusted.
        + intros Hin%list_elem_of_singleton. congruence. }
    destruct (adjust_resource st res) as [[[[]|e] st1 n]|]; [| |discriminate].
    + eapply IH; [exact Hrun|]. by apply (Hstep (LoopEnd (Ok tt) st1 n)).
    + injection Hrun as <- <-. by apply (Hstep (LoopEnd (Raise e) st1 n)).
Qed.

Lemma adjust_resources_ok_valid R st st' :
  adjust_resources st R = Some (Ok tt, st') →
  ∀ resource, resource ∈ R →
    valid_resource_state (resources st') (limits st') resource.
Proof.
  revert st. induction R as [|res R IH]; intros st; simpl.
  - intros _ resource H. by apply elem_of_nil in H.
  - destruct (adjust_resource st res) as [[[[]|e] st1 n]|] eqn:Hloop;
      [|discriminate|discriminate].
    intros Hrun resource [->|Hin]%elem_of_cons.
    + eapply adjust_resources_keep_valid; [exact Hrun|].
      by eapply adjust_resource_ok_valid.
    + by eapply IH.
Qed.

Lemma adjusted_entry resource st st' res :
  adjusted resource st st' →
  limits st' !! res = limits st !! res ∨ repaired_entry (limits st' !! res).
Proof.
  intros [->|H]; [by left|].
  apply repair_limits_ok in H as (lim & b & r & cur & Hl & Hb & Hr & Hc & ->).
  simpl. destruct (decide (resource = res)) as [->|Hne].
  - right. rewrite lookup_insert_eq. eexists _, (cur - b), (cur - b - b), b.
    split; [done|]. rewrite lookup_insert_eq.
    rewrite lookup_insert_ne, lookup_insert_eq by done.
    by rewrite !lookup_insert_ne.
  - left. by apply lookup_insert_ne.
Qed.

Lemma adjust_resources_entry R st out st' res :
  adjust_resources st R = Some (out, st') →
  limits st' !! res = limits st !! res ∨ repaired_entry (limits st' !! res).
Proof.
  revert st. induction R as [|resource R IH]; intros st; simpl.
  - intros [= <- <-]. by left.
  - destruct (adjust_resource st resource) as [[[[]|e] st1 n]|] eqn:Hloop;
      [| |discriminate];
      apply adjust_resource_adjusted, (adjusted_entry _ _ _ res) in Hloop;
      simpl in Hloop.
    + intros [H|H]%IH; [|by right]. rewrite H. exact Hloop.
    + by intros [= <- <-].
Qed.

(** ** The state invariant after a successful run (C1) *)

(** C1, as the code has it.  After [adjust_container_state] has returned,
    every listed resource is in both dictionaries, with
    [lower <= upper], [upper = current - boundary] and [current <= max];
    [lower = upper - boundary] holds for the entries that the run has
    changed, and need not hold for an entry that was accepted as it came. *)
Theorem adjust_container_state_invariant
  (r l : gmap string (gmap string Z)) (R : list string)
  (st' : container_state) :
  adjust_container_state r l R = Some (Ok tt, st') →
  ∀ res, res ∈ R →
    ∃ rres lim mx cur up lo b,
      r !! res = Some rres ∧ limits st' !! res = Some lim ∧
      rres !! "max" = Some mx ∧ rres !! "current" = Some cur ∧
      lim !! "upper" = Some up ∧ lim !! "lower" = Some lo ∧
      lim !! "boundary" = Some b ∧
      lo <= up ∧ up = cur - b ∧ cur <= mx ∧
      (limits st' !! res ≠ l !! res → lo = up - b).
Proof.
  unfold adjust_container_state. intros Hrun res Hres.
  pose proof (adjust_resources_ok_valid _ _ _ Hrun res Hres)
    as (rres & lim & mx & cur & mn & up & lo & b & Hr & Hl & Hmx & Hcur & Hmn
        & Hup & Hlo & Hb & H1 & H2 & H3 & H4).
  pose proof (adjust_resources_writes_only _ _ _ _ Hrun) as (Hres' & _).
  simpl in Hres'. rewrite Hres' in Hr.
  exists rres, lim, mx, cur, up, lo, b. repeat (split; [done|]).
  intros Hchanged.
  destruct (adjust_resources_entry _ _ _ _ res Hrun) as [Hsame|Hrep];
    [done|].
  destruct Hrep as (lim' & up' & lo' & b' & Hl' & Hup' & Hlo' & Hb' & ->).
  congruence.
Qed.

(** The repair scenario: limits of 200 and 200 over a current of 140 are
    mended to 120 and 100. *)
Lemma adjust_container_state_invariant_witness :
  adjust_container_state node0_resources broken_limits ["cpu"]
    = Some (Ok tt, {| resources := node0_resources; limits := mended_limits |})
  ∧ ∃ rres lim mx cur up lo b,
      node0_resources !! "cpu" = Some rres ∧ mended_limits !! "cpu" = Some lim ∧
      rres !! "max" = Some mx ∧ rres !! "current" = Some cur ∧
      lim !! "upper" = Some up ∧ lim !! "lower" = Some lo ∧
      lim !! "boundary" = Some b ∧
      lo <= up ∧ up = cur - b ∧ cur <= mx ∧
      (mended_limits !! "cpu" ≠ broken_limits !! "cpu" → lo = up - b).
Proof.
  split; [by vm_compute|].
  apply (adjust_container_state_invariant node0_resources broken_limits ["cpu"]
           {| resources := node0_resources; limits := mended_limits |}).
  - by vm_compute.
  - apply list_elem_of_here.
Defined.

(** C1 as stated fails on the container of the test suite: its limits are
    accepted as they are, and [lower] is 80 where [upper - boundary] is 100. *)
Lemma adjust_container_state_lower_counterexample :
  adjust_container_state node0_resources node0_limits ["cpu"]
    = Some (Ok tt, {| resources := node0_resources; limits := node0_limits |})
  ∧ node0_limits !! "cpu" ≫= (.!! "lower") = Some 80
  ∧ node0_limits !! "cpu" ≫= (.!! "upper") = Some 120
  ∧ node0_limits !! "cpu" ≫= (.!! "boundary") = Some 20
  ∧ 80 ≠ 120 - 20.
Proof. repeat split; by vm_compute. Qed.

(** ** The bound on the attempts (C3) *)

Lemma attempt_state_repaired resource st k s :
  attempt_state resource st (S k) = Some s →
  check_invalid_container_state (resources st) (limits st) resource
    = Raise ValueError ∧
  repair_limits st resource = (Ok tt, s).
Proof.
  revert s. induction k as [|k IH]; intros s.
  - simpl. destruct (check_invalid_container_state _ _ _) as [|[]]; try done.
    destruct (repair_limits st resource) as [[[]|] s1]; try done.
    by intros [= <-].
  - intros H. change (attempt_state resource st (S (S k))) with
      (match attempt_state resource st (S k) with
       | Some s =>
         match check_invalid_container_state (resources s) (limits s) resource with
         | Raise ValueError =>
           match repair_limits s resource with
           | (Ok _, s') => Some s'
           | (Raise _, _) => None
           end
         | _ => None
         end
       | None => None
       end) in H.
    destruct (attempt_state resource st (S k)) as [s1|]; [|done].
    destruct (IH s1 eq_refl) as [Hc Hr]. split; [done|].
    destruct (check_invalid_container_state (resources s1) _ _) as [|[]];
      try done.
    rewrite (repair_limits_idem _ _ _ Hr) in H. by injection H as <-.
Qed.

Lemma attempt_state_stuck resource st s k :
  check_invalid_container_state (resources st) (limits st) resource
    = Raise ValueError →
  repair_limits st resource = (Ok tt, s) →
  check_invalid_container_state (resources s) (limits s) resource
    = Raise ValueError →
  attempt_state resource st (S k) = Some s.
Proof.
  intros Hc Hr Hc1. induction k as [|k IH].
  - simpl. by rewrite Hc, Hr.
  - change (attempt_state resource st (S (S k))) with
      (match attempt_state resource st (S k) with
       | Some s =>
         match check_invalid_container_state (resources s) (limits s) resource with
         | Raise ValueError =>
           match repair_limits s resource with
           | (Ok _, s') => Some s'
           | (Raise _, _) => None
           end
         | _ => None
         end
       | None => None
       end).
    by rewrite IH, Hc1, (repair_limits_idem _ _ _ Hr).
Qed.

(** The validation has [RuntimeError]s of its own, none of them the
    failure of the loop. *)
Lemma check_not_error_fixing r l resource :
  check_invalid_container_state r l resource ≠ Raise error_fixing_limits.
Proof.
  unfold check_invalid_container_state, getitem, check_unset_values,
    check_invalid_values, try_get_value, error_fixing_limits.
  repeat (case_match; simpl; try discriminate).
Qed.

(** C3.  The loop over one resource ends within the ten iterations that
    [adjust_resource] unfolds, with [n_loop] at most 10.  It ends with
    [RuntimeError("Error fixing limits")] exactly when the validation has
    refused the state with a [ValueError] at each of the ten iterations; and
    when the validation accepts the state at one of them, the loop ends
    without an exception. *)
Theorem adjust_resource_attempts (st : container_state) (resource : string) :
  ∃ e, adjust_resource st resource = Some e ∧
    0 <= n_loop_after e <= 10 ∧
    (ended e = Raise error_fixing_limits ↔
       ∀ k, (k < 10)%nat → attempt resource st k = Some (Raise ValueError)) ∧
    (∀ k, (k < 10)%nat → attempt resource st k = Some (Ok tt) →
       ended e = Ok tt).
Proof.
  rewrite adjust_resource_cases.
  destruct (check_invalid_container_state (resources st) (limits st) resource)
    as [[]|e0] eqn:Hc.
  { eexists; split; [done|]. simpl. split; [lia|]. split; [|done].
    split; [done|]. intros H. specialize (H 0%nat ltac:(lia)).
    unfold attempt in H. simpl in H. congruence. }
  assert (∀ k s, attempt_state resource st (S k) = Some s →
            e0 = ValueError ∧ repair_limits st resource = (Ok tt, s)) as Hrep.
  { intros k s [H1 H2]%attempt_state_repaired. split; congruence. }
  assert (∀ k, attempt resource st k = Some (Ok tt) →
            ∃ s, e0 = ValueError ∧ repair_limits st resource = (Ok tt, s) ∧
              check_invalid_container_state (resources s) (limits s) resource
                = Ok tt) as Hacc.
  { intros [|k]; unfold attempt.
    - simpl. congruence.
    - destruct (attempt_state resource st (S k)) as [s|] eqn:Hs; [|done].
      simpl. intros [= Hok]. destruct (Hrep _ _ Hs). eauto. }
  assert (e0 ≠ ValueError →
    ∃ e, Some (LoopEnd (Raise e0) st 0) = Some e ∧
      0 <= n_loop_after e <= 10 ∧
      (ended e = Raise error_fixing_limits ↔
         ∀ k, (k < 10)%nat → attempt resource st k = Some (Raise ValueError)) ∧
      (∀ k, (k < 10)%nat → attempt resource st k = Some (Ok tt) →
         ended e = Ok tt)) as Hother.
  { intros Hne. eexists; split; [done|]. simpl. split; [lia|]. split.
    - split.
      + intros [= ->]. by destruct (check_not_error_fixing _ _ _ Hc).
      + intros H. specialize (H 0%nat ltac:(lia)). unfold attempt in H.
        simpl in H. congruence.
    - intros k _ (s & ? & _)%Hacc. done. }
  destruct e0; try (apply Hother; discriminate). clear Hother.
  destruct (repair_limits st resource) as [[[]|e1] st1] eqn:Hr.
  2: { eexists; split; [done|]. simpl. split; [lia|]. split.
       - split.
         + intros [= ->]. by apply repair_limits_raise_key in Hr as [key ?].
         + intros H. specialize (H 1%nat ltac:(lia)). unfold attempt in H.
           simpl in H. by rewrite Hc, Hr in H.
       - intros k _ (s & _ & ? & _)%Hacc. done. }
  destruct (check_invalid_container_state (resources st1) (limits st1) resource)
    as [[]|e2] eqn:Hc1.
  { eexists; split; [done|]. simpl. split; [lia|]. split; [|done].
    split; [done|]. intros H. specialize (H 1%nat ltac:(lia)).
    unfold attempt in H. simpl in H. rewrite Hc, Hr in H. simpl in H.
    congruence. }
  assert (∀ k, attempt resource st k ≠ Some (Ok tt)) as Hnever.
  { intros k (s & _ & [= <-] & Hok)%Hacc. congruence. }
  destruct e2.
  - eexists; split; [done|]. simpl. split; [lia|]. split.
    + split; [|done]. intros _ [|k] _; unfold attempt.
      * simpl. by rewrite Hc.
      * rewrite (attempt_state_stuck _ _ st1) by done. simpl. by rewrite Hc1.
    + intros k _ H. by destruct (Hnever k).
  - eexists; split; [done|]. simpl. split; [lia|]. split.
    + split.
      * intros [= ->]. by destruct (check_not_error_fixing _ _ _ Hc1).
      * intros H. specialize (H 1%nat ltac:(lia)). unfold attempt in H.
        simpl in H. rewrite Hc, Hr in H. simpl in H. congruence.
    + intros k _ H. by destruct (Hnever k).
  - eexists; split; [done|]. simpl. split; [lia|]. split.
    + split; [done|].
      intros H. specialize (H 1%nat ltac:(lia)). unfold attempt in H.
      simpl in H. rewrite Hc, Hr in H. simpl in H. congruence.
    + intros k _ H. by destruct (Hnever k).
  - eexists; split; [done|]. simpl. split; [lia|]. split.
    + split; [done|].
      intros H. specialize (H 1%nat ltac:(lia)). unfold attempt in H.
      simpl in H. rewrite Hc, Hr in H. simpl in H. congruence.
    + intros k _ H. by destruct (Hnever k).
  - eexists; split; [done|]. simpl. split; [lia|]. split.
    + split; [done|].
      intros H. specialize (H 1%nat ltac:(lia)). unfold attempt in H.
      simpl in H. rewrite Hc, Hr in H. simpl in H. congruence.
    + intros k _ H. by destruct (Hnever k).
Qed.

(** A boundary below zero cannot be mended: the repair puts [upper] above
    [current], and the tenth iteration gives up. *)
Example adjust_resource_unfixable :
  adjust_resource
    {| resources := node0_resources;
       limits := {[ "cpu" := <["lower" := 80]> (<["upper" := 120]>
                                {[ "boundary" := -20 ]}) ]} |} "cpu"
  = Some (LoopEnd (Raise error_fixing_limits)
      {| resources := node0_resources;
         limits := {[ "cpu" := <["lower" := 180]> (<["upper" := 160]>
                                  {[ "boundary" := -20 ]}) ]} |} 10).
Proof. by vm_compute. Qed.

(** ** The frame of the repair (C10) *)

(** C10.  [adjust_container_state] always ends, and however it ends
    (by [return] or by an exception) the [resources] dictionary is as it was
    handed in, the limits of a resource outside [resources_to_adjust] are
    as they were, no limits entry has appeared or disappeared, and inside
    every entry all fields but [upper] and [lower], [boundary] among them,
    are as they were. *)
Theorem adjust_container_state_frame
  (r l : gmap string (gmap string Z)) (R : list string) :
  ∃ out st', adjust_container_state r l R = Some (out, st') ∧
    resources st' = r ∧
    (∀ res, res ∉ R → limits st' !! res = l !! res) ∧
    (∀ res, is_Some (limits st' !! res) ↔ is_Some (l !! res)) ∧
    (∀ res key, key ≠ "upper" → key ≠ "lower" →
       limits st' !! res ≫= (.!! key) = l !! res ≫= (.!! key)) ∧
    (∀ res, limits st' !! res ≫= (.!! "boundary") = l !! res ≫= (.!! "boundary")).
Proof.
  unfold adjust_container_state.
  destruct (adjust_resources_total R {| resources := r; limits := l |})
    as (out & st' & Hrun).
  exists out, st'. split; [done|].
  apply adjust_resources_writes_only in Hrun as (Ha & Hb & Hc & Hd).
  simpl in *. repeat (split; [done|]). intros res. by apply Hd.
Qed.

(** * Properties of the amounts *)

(** ** Arithmetic of Python numbers *)

Lemma ltb_lt a b : Num.ltb a b = true ↔ (Num.to_Q a < Num.to_Q b)%Q.
Proof.
  unfold Num.ltb. rewrite Qlt_alt.
  destruct (Num.to_Q a ?= Num.to_Q b)%Q; split; congruence.
Qed.

Lemma ltb_ge a b : Num.ltb a b = false ↔ (Num.to_Q b <= Num.to_Q a)%Q.
Proof.
  destruct (Num.ltb a b) eqn:E.
  - apply ltb_lt in E. split; [done|]. intros H. exfalso. lra.
  - split; [|done]. intros _.
    destruct (Qlt_le_dec (Num.to_Q a) (Num.to_Q b)) as [H|H]; [|done].
    apply ltb_lt in H. congruence.
Qed.

Lemma eqb_eq a b : Num.eqb a b = true ↔ (Num.to_Q a == Num.to_Q b)%Q.
Proof.
  unfold Num.eqb. rewrite Qeq_alt.
  destruct (Num.to_Q a ?= Num.to_Q b)%Q; split; congruence.
Qed.

Lemma to_Q_add a b : (Num.to_Q (Num.add a b) == Num.to_Q a + Num.to_Q b)%Q.
Proof. destruct a, b; simpl; try reflexivity. by rewrite inject_Z_plus. Qed.

Lemma to_Q_sub a b : (Num.to_Q (Num.sub a b) == Num.to_Q a - Num.to_Q b)%Q.
Proof.
  destruct a, b; simpl; try reflexivity.
  unfold Z.sub. rewrite inject_Z_plus, inject_Z_opp. reflexivity.
Qed.

(** Truncation stays between zero and the number. *)
Lemma truncate_nonneg q :
  (0 <= q)%Q → 0 <= Num.truncate q ∧ (inject_Z (Num.truncate q) <= q)%Q.
Proof.
  intros H. unfold Num.truncate.
  rewrite (proj2 (Qle_bool_iff 0 q) H). split; [|apply Qfloor_le].
  change 0 with (Qfloor 0). by apply Qfloor_resp_le.
Qed.

Lemma truncate_neg q :
  (q < 0)%Q → Num.truncate q <= 0 ∧ (q <= inject_Z (Num.truncate q))%Q.
Proof.
  intros H. unfold Num.truncate.
  destruct (Qle_bool 0 q) eqn:E; [apply Qle_bool_iff in E; lra|].
  split; [|apply Qle_ceiling].
  change 0 with (Qceiling 0). apply Qceiling_resp_le. lra.
Qed.

Lemma truncate_inject_Z q z : (q == inject_Z z)%Q → Num.truncate q = z.
Proof.
  intros H. unfold Num.truncate.
  destruct (Qle_bool 0 q); rewrite H; [apply Qfloor_Z|apply Qceiling_Z].
Qed.

(** [int(q) == 0] exactly for the floats strictly between -1 and 1. *)
Lemma truncate_zero q : Num.truncate q = 0 ↔ (-1 < q < 1)%Q.
Proof.
  unfold Num.truncate. destruct (Qle_bool 0 q) eqn:E.
  - apply Qle_bool_iff in E. split.
    + intros H. pose proof (Qlt_floor q) as H1. rewrite H in H1.
      change (inject_Z (0 + 1)) with 1%Q in H1. lra.
    + intros [_ H]. pose proof (Qfloor_le q) as H1.
      assert (Qfloor q < 1)
        by (rewrite Zlt_Qlt; change (inject_Z 1) with 1%Q; lra).
      assert (Qfloor 0 <= Qfloor q) by (by apply Qfloor_resp_le).
      change (Qfloor 0) with 0 in *. lia.
  - assert (q < 0)%Q as Hneg.
    { destruct (Qlt_le_dec q 0) as [|H]; [done|].
      apply Qle_bool_iff in H. congruence. }
    split.
    + intros H. pose proof (Qceiling_lt q) as H1. rewrite H in H1.
      change (inject_Z (0 - 1)) with (-1)%Q in H1. lra.
    + intros [H _]. pose proof (Qle_ceiling q) as H1.
      assert (-1 < Qceiling q)
        by (rewrite Zlt_Qlt; change (inject_Z (-1)) with (-1)%Q; lra).
      assert (Qceiling q <= Qceiling 0) by (apply Qceiling_resp_le; lra).
      change (Qceiling 0) with 0 in *. lia.
Qed.

(** ** The rounding guard (C7) *)

(** C7.  The guard sends an amount strictly between -1 and 0 to -1, an
    amount strictly between 0 and 1 to 1, and leaves every other amount
    (zero, or of absolute value at least 1) as it is: the sign of a nonzero
    amount is never flipped. *)
Theorem rounding_guard_sign (amount : number) :
  ((-1 < Num.to_Q amount < 0)%Q → rounding_guard amount = Int (-1)) ∧
  ((0 < Num.to_Q amount < 1)%Q → rounding_guard amount = Int 1) ∧
  ((Num.to_Q amount <= -1 ∨ 1 <= Num.to_Q amount ∨ Num.to_Q amount == 0)%Q →
     rounding_guard amount = amount).
Proof.
  assert (Num.int amount = 0 ↔ (-1 < Num.to_Q amount < 1)%Q) as Hint.
  { destruct amount as [z|q]; simpl; [|apply truncate_zero].
    change (z = 0 ↔ (inject_Z (-1) < inject_Z z ∧ inject_Z z < inject_Z 1)%Q).
    rewrite <- !Zlt_Qlt. lia. }
  unfold rounding_guard.
  destruct (Num.ltb amount (Int 0)) eqn:Hneg;
    [apply ltb_lt in Hneg|apply ltb_ge in Hneg];
    (destruct (Num.ltb (Int 0) amount) eqn:Hpos;
      [apply ltb_lt in Hpos|apply ltb_ge in Hpos]);
    simpl in Hneg, Hpos; change (inject_Z 0) with 0%Q in Hneg, Hpos;
    (destruct (Z.eqb_spec (Num.int amount) 0) as [Hz|Hz];
      [pose proof (proj1 Hint Hz)
      |assert (¬ (-1 < Num.to_Q amount < 1)%Q) by (by rewrite <- Hint)]);
    simpl; repeat split; intros; try done; exfalso; intuition lra.
Qed.

Example rounding_guard_fractions :
  rounding_guard (Float (-3 # 10)) = Int (-1) ∧
  rounding_guard (Float (3 # 10)) = Int 1 ∧
  rounding_guard (Float (-5 # 2)) = Float (-5 # 2) ∧
  rounding_guard (Int 0) = Int 0 ∧
  rounding_guard (Int (-7)) = Int (-7).
Proof. repeat split; reflexivity. Qed.

(** ** The fit-to-usage amount (C8) *)

Lemma log2_floor_le n d : Num.log2_floor n d <= Z.log2 n - Z.log2 d.
Proof.
  unfold Num.log2_floor.
  destruct (0 <=? _); [destruct (_ <=? _)|destruct (_ <=? _)]; lia.
Qed.

Lemma truncate_comp q1 q2 : (q1 == q2)%Q → Num.truncate q1 = Num.truncate q2.
Proof.
  intros Heq. unfold Num.truncate.
  rewrite (Qfloor_comp _ _ Heq), (Qceiling_comp _ _ Heq).
  destruct (Qle_bool 0 q1) eqn:H1, (Qle_bool 0 q2) eqn:H2; try done.
  - apply Qle_bool_iff in H1. rewrite Heq in H1.
    apply Qle_bool_iff in H1. congruence.
  - apply Qle_bool_iff in H2. rewrite <- Heq in H2.
    apply Qle_bool_iff in H2. congruence.
Qed.

(** [int] of a half cuts toward zero. *)
Lemma truncate_half a : Num.truncate (a # 2) = a ÷ 2.
Proof.
  unfold Num.truncate.
  destruct (Qle_bool 0 (a # 2)) eqn:H.
  - apply Qle_bool_iff in H. unfold Qle in H. simpl in H.
    unfold Qfloor. rewrite Z.quot_div_nonneg by lia. done.
  - assert (a < 0) as Hneg.
    { destruct (Z.lt_ge_cases a 0) as [|Hge]; [done|].
      assert (Qle_bool 0 (a # 2) = true); [|congruence].
      apply Qle_bool_iff. unfold Qle. simpl. lia. }
    unfold Qceiling, Qfloor. simpl.
    rewrite <- (Z.opp_involutive a) at 2.
    rewrite Z.quot_opp_l by lia. rewrite Z.quot_div_nonneg by lia. done.
Qed.

(** The half of an integer under 2^53 in magnitude is a double: the
    division does not round it. *)
Lemma binary64_half a :
  - 2 ^ 53 < a < 2 ^ 53 →
  ∃ q, Num.binary64 (a # 2) = Some q ∧ (q == a # 2)%Q.
Proof.
  intros Ha. unfold Num.binary64. cbn [Qnum Qden].
  destruct (Z.eqb_spec (Z.abs a) 0) as [H0|H0].
  { exists 0%Q. split; [done|]. assert (a = 0) as -> by lia. done. }
  set (n := Z.abs a) in *.
  assert (0 < n < 2 ^ 53) as Hn by lia.
  pose proof (log2_floor_le n 2) as HL.
  assert (Z.log2 n < 53) as Hlog by (apply Z.log2_lt_pow2; lia).
  change (Z.log2 2) with 1 in HL.
  set (e := Z.max (Num.log2_floor n 2 - 52) (-1074)).
  assert (e < 0) as He by lia.
  destruct (Z.leb_spec 0 e) as [?|_]; [lia|].
  eexists. split; [done|].
  assert (2 ^ (- e) = 2 * 2 ^ (- e - 1)) as Hpow.
  { rewrite <- Z.pow_succ_r by lia. f_equal. lia. }
  assert (0 < 2 ^ (- e - 1)) as Hpos by (apply Z.pow_pos_nonneg; lia).
  assert (Num.round_half_even (n * 2 ^ (- e)) 2 = n * 2 ^ (- e - 1)) as ->.
  { unfold Num.round_half_even.
    replace (n * 2 ^ (- e)) with (n * 2 ^ (- e - 1) * 2) by (rewrite Hpow; lia).
    rewrite Z.mod_mul, Z.div_mul by lia. done. }
  unfold Qeq. cbn [Qnum Qden].
  rewrite Z2Pos.id by lia. rewrite Hpow.
  assert (Z.sgn a * n = a) as Hsgn by (unfold n; lia).
  change (Z.pos 2) with 2. nia.
Qed.

Lemma truediv_half a :
  - 2 ^ 53 < a < 2 ^ 53 →
  ∃ half, Num.truediv a 2 = Ok half ∧ Num.int half = a ÷ 2.
Proof.
  intros Ha. destruct (binary64_half a Ha) as (q & Hq & Heq).
  exists (Float q). unfold Num.truediv. rewrite Hq. split; [done|].
  simpl. by rewrite (truncate_comp _ _ Heq), truncate_half.
Qed.

(** On integers, with a boundary that a double holds, the amount is the
    one of the formula. *)
Lemma fit_reduction_exact current boundary usage :
  - 2 ^ 53 < boundary < 2 ^ 53 →
  get_amount_from_fit_reduction current boundary (Int usage)
    = Ok (Int ((usage + boundary ÷ 2 + boundary) - current)).
Proof.
  intros Hb. unfold get_amount_from_fit_reduction.
  destruct (truediv_half boundary Hb) as (half & -> & Hhalf).
  cbn [rbind]. rewrite Hhalf. cbn [Num.add Num.sub Num.mul].
  do 2 f_equal. lia.
Qed.

(** C8, within the integers that a double holds.  For a boundary under
    2^53 in magnitude, [get_amount_from_fit_reduction] returns on integers
    [(usage + boundary/2 + boundary) - current] with the half cut toward
    zero, which for a boundary that is not negative is the integer
    division.  The bound is needed: the half is computed as a float. *)
Theorem get_amount_from_fit_reduction_integers (current boundary usage : Z) :
  - 2 ^ 53 < boundary < 2 ^ 53 →
  get_amount_from_fit_reduction current boundary (Int usage)
    = Ok (Int ((usage + boundary ÷ 2 + boundary) - current)) ∧
  (0 <= boundary → boundary ÷ 2 = boundary / 2).
Proof.
  intros Hb. split.
  - unfold get_amount_from_fit_reduction.
    destruct (truediv_half boundary Hb) as (half & -> & Hhalf).
    cbn [rbind]. rewrite Hhalf. cbn [Num.add Num.sub Num.mul].
    do 2 f_equal. lia.
  - intros H. by apply Z.quot_div_nonneg.
Qed.

(** The first scenario of the test suite: usage 180 under a boundary of 20
    asks for 210, that is 70 more than the 140 applied. *)
Lemma get_amount_from_fit_reduction_integers_witness :
  - 2 ^ 53 < 20 < 2 ^ 53 ∧
  get_amount_from_fit_reduction 140 20 (Int 180)
    = Ok (Int ((180 + 20 ÷ 2 + 20) - 140)) ∧
  (0 <= 20 → 20 ÷ 2 = 20 / 2).
Proof.
  assert (- 2 ^ 53 < 20 < 2 ^ 53) as Hb by (split; reflexivity).
  split; [exact Hb|].
  exact (get_amount_from_fit_reduction_integers 140 20 180 Hb).
Defined.

(** C8 as stated fails past what a double holds.  The half of the boundary
    2^54 + 2 is 2^53 + 1, which lies midway between two doubles; the
    division gives 2^53, and the amount comes out one under the formula. *)
Lemma get_amount_from_fit_reduction_double_counterexample :
  get_amount_from_fit_reduction 0 18014398509481986 (Int 0)
    = Ok (Int 27021597764222978) ∧
  (0 + 18014398509481986 ÷ 2 + 18014398509481986) - 0 = 27021597764222979.
Proof. split; by vm_compute. Qed.

Example get_amount_from_fit_reduction_node0 :
  get_amount_from_fit_reduction 140 20 (Int 180) = Ok (Int 70).
Proof. by vm_compute. Qed.

(** A boundary that no double holds makes the division raise. *)
Example get_amount_from_fit_reduction_overflow :
  get_amount_from_fit_reduction 0 (2 ^ 1025) (Int 0) = Raise OverflowError.
Proof. by vm_compute. Qed.

(** ** Clamping (C2) *)

Lemma int_of_integer a z : (Num.to_Q a == inject_Z z)%Q → Num.int a = z.
Proof.
  destruct a as [x|q]; simpl.
  - apply inject_Z_injective.
  - apply truncate_inject_Z.
Qed.

(** [int] rounds toward zero. *)
Lemma int_toward_zero a :
  ((0 <= Num.to_Q a)%Q →
     0 <= Num.int a ∧ (inject_Z (Num.int a) <= Num.to_Q a)%Q) ∧
  ((Num.to_Q a < 0)%Q →
     Num.int a <= 0 ∧ (Num.to_Q a <= inject_Z (Num.int a))%Q).
Proof.
  destruct a as [x|q]; simpl.
  - change 0%Q with (inject_Z 0). rewrite <- Zle_Qle, <- Zlt_Qlt.
    split; intros; (split; [lia|apply Qle_refl]).
  - split; [apply truncate_nonneg|apply truncate_neg].
Qed.

(** What [adjust_amount] returns, by the branch it takes. *)
Lemma adjust_amount_cases amount sr sl mn cur mx lo :
  sr !! "min" = Some mn → sr !! "current" = Some cur →
  sr !! "max" = Some mx → sl !! "lower" = Some lo →
  ∃ a, adjust_amount amount sr sl = Ok a ∧
    (((inject_Z lo + Num.to_Q amount < inject_Z mn)%Q ∧ Num.int a = mn - lo) ∨
     ((inject_Z mn <= inject_Z lo + Num.to_Q amount)%Q ∧
      (inject_Z mx < inject_Z cur + Num.to_Q amount)%Q ∧ Num.int a = mx - cur) ∨
     ((inject_Z mn <= inject_Z lo + Num.to_Q amount)%Q ∧
      (inject_Z cur + Num.to_Q amount <= inject_Z mx)%Q ∧ a = amount)).
Proof.
  intros Hmn Hcur Hmx Hlo. unfold adjust_amount, getitem.
  rewrite Hmn, Hcur, Hmx, Hlo. cbn [rbind].
  destruct (Num.ltb (Num.add (Int lo) amount) (Int mn)) eqn:Hlow.
  - apply ltb_lt in Hlow. rewrite to_Q_add in Hlow. simpl in Hlow.
    eexists; split; [reflexivity|]. left. split; [done|].
    apply int_of_integer.
    rewrite to_Q_add, to_Q_sub, to_Q_add. simpl.
    unfold Z.sub. rewrite inject_Z_plus, inject_Z_opp. lra.
  - apply ltb_ge in Hlow. rewrite to_Q_add in Hlow. simpl in Hlow.
    destruct (Num.ltb (Int mx) (Num.add (Int cur) amount)) eqn:Hhigh.
    + apply ltb_lt in Hhigh. rewrite to_Q_add in Hhigh. simpl in Hhigh.
      eexists; split; [reflexivity|]. right; left. repeat (split; [done|]).
      apply int_of_integer.
      rewrite to_Q_sub, to_Q_sub, to_Q_add. simpl.
      unfold Z.sub. rewrite inject_Z_plus, inject_Z_opp. lra.
    + apply ltb_ge in Hhigh. rewrite to_Q_add in Hhigh. simpl in Hhigh.
      eexists; split; [reflexivity|]. right; right. done.
Qed.

(** With [min <= lower <= current <= max], the amount that [adjust_amount]
    returns, cut to an integer as [generate_request] does, keeps both
    [current] and [lower] in range. *)
Lemma adjust_amount_in_range amount sr sl mn cur mx lo a :
  sr !! "min" = Some mn → sr !! "current" = Some cur →
  sr !! "max" = Some mx → sl !! "lower" = Some lo →
  mn <= lo → lo <= cur → cur <= mx →
  adjust_amount amount sr sl = Ok a →
  mn <= cur + Num.int a <= mx ∧ lo + Num.int a >= mn.
Proof.
  intros Hmn Hcur Hmx Hlo H1 H2 H3 Ha.
  destruct (adjust_amount_cases amount sr sl mn cur mx lo Hmn Hcur Hmx Hlo)
    as (a' & Ha' & Hcases).
  rewrite Ha in Ha'. injection Ha' as <-.
  destruct Hcases as [[_ ->]|[(_ & _ & ->)|(Hl & Hh & ->)]]; [lia|lia|].
  destruct (int_toward_zero amount) as [Hpos Hneg].
  destruct (Qlt_le_dec (Num.to_Q amount) 0) as [Hsign|Hsign].
  - destruct (Hneg Hsign) as [Hz Hq].
    assert (mn <= lo + Num.int amount); [|lia].
    rewrite Zle_Qle, inject_Z_plus. lra.
  - destruct (Hpos Hsign) as [Hz Hq].
    assert (cur + Num.int amount <= mx); [|lia].
    rewrite Zle_Qle, inject_Z_plus. lra.
Qed.

(** * Properties of the request engine ([match_rules_and_events]) *)

Section RequestFacts.

Variable time_time : nat → Q.
Variable rule_expr : Type.
Variable jsonLogic : rule_expr → scale_counters → bool.
Variable generate_event_name : scale_counters → string → result string.
Variable generate_request_name : number → string → result string.
Variable cpu_shares_per_watt : number.
Variable s : structure.
Variable events : gmap string scale_counters.
Variable limits : gmap string (gmap string Z).
Variable usages : gmap string number.

Abbreviation final_amount :=
  (Guardian.final_amount rule_expr cpu_shares_per_watt s limits usages).
Abbreviation emit_request :=
  (Guardian.emit_request time_time generate_request_name s).
Abbreviation book_events_to_remove :=
  (Guardian.book_events_to_remove rule_expr generate_event_name).
Abbreviation rule_body :=
  (Guardian.rule_body time_time rule_expr jsonLogic generate_event_name
     generate_request_name cpu_shares_per_watt s events limits usages).
Abbreviation match_rule :=
  (Guardian.match_rule time_time rule_expr jsonLogic generate_event_name
     generate_request_name cpu_shares_per_watt s events limits usages).
Abbreviation match_rules_and_events :=
  (Guardian.match_rules_and_events time_time rule_expr jsonLogic
     generate_event_name generate_request_name cpu_shares_per_watt s events
     limits usages).
Abbreviation clamped := (clamped_for s limits).

(** What [emit_request] leaves in the list: nothing new, or one request
    carrying the amount cut to an integer, under the resource of the rule
    unless that is [energy]. *)
Lemma emit_request_requests st label amount out st' :
  emit_request st label amount = (out, st') →
  events_to_remove st' = events_to_remove st ∧
  (generated_requests st' = generated_requests st ∨
   ∃ q, generated_requests st' = generated_requests st ++ [q] ∧
     request_amount q = Num.int amount ∧
     request_resource q = (if String.eqb label "energy" then "cpu" else label) ∧
     request_for_energy q
       = (if String.eqb label "energy" then Some true else None)).
Proof.
  unfold Guardian.emit_request.
  destruct (generate_request_name amount label) as [action|e];
    [|intros [= <- <-]; auto].
  destruct (is_container s).
  - destruct (structure_host s), (structure_host_rescaler_ip s),
      (structure_host_rescaler_port s); intros [= <- <-]; simpl; auto.
    split; [done|]. right. eexists. split; [done|]. done.
  - intros [= <- <-]. simpl. split; [done|]. right. eexists. split; [done|].
    done.
Qed.

Lemma book_events_to_remove_requests st r reduced out st' :
  book_events_to_remove st r reduced = (out, st') →
  generated_requests st' = generated_requests st.
Proof.
  unfold Guardian.book_events_to_remove.
  destruct (generate_event_name reduced _); [|by intros [= <- <-]].
  destruct (rule_events_to_remove _ r); by intros [= <- <-].
Qed.

(** One iteration adds at most one request, and then one whose amount is
    the final amount of the rule. *)
Lemma rule_body_requests st r out st' :
  rule_body st r = (out, st') →
  generated_requests st' = generated_requests st ∨
  ∃ amount q, final_amount r = Ok amount ∧
    generated_requests st' = generated_requests st ++ [q] ∧
    request_amount q = Num.int amount ∧
    request_resource q
      = (if String.eqb (rule_resource _ r) "energy" then "cpu"
         else rule_resource _ r) ∧
    request_for_energy q
      = (if String.eqb (rule_resource _ r) "energy" then Some true else None).
Proof.
  unfold Guardian.rule_body.
  destruct (rule_fires _ _ _ _); [|intros [= <- <-]; auto].
  destruct (no_current_value _ _) as [[]|]; try (intros [= <- <-]; auto).
  destruct (Guardian.final_amount _ _ _ _ _ r) as [amount|] eqn:Hamount;
    [|intros [= <- <-]; auto].
  destruct (negb (Num.eqb amount (Int 0))).
  - destruct (emit_request st (rule_resource _ r) amount)
      as [emitted st1] eqn:Hemit.
    apply emit_request_requests in Hemit as [_ Hemit].
    assert (generated_requests st' = generated_requests st1 →
      generated_requests st' = generated_requests st ∨
      ∃ amount0 q, Ok amount = Ok amount0 ∧
        generated_requests st' = generated_requests st ++ [q] ∧
        request_amount q = Num.int amount0 ∧
        request_resource q
          = (if String.eqb (rule_resource _ r) "energy" then "cpu"
             else rule_resource _ r) ∧
        request_for_energy q
          = (if String.eqb (rule_resource _ r) "energy" then Some true
             else None)) as Hsame.
    { intros ->. destruct Hemit as [|(q & ? & ? & ? & ?)]; [by left|].
      right. by exists amount, q. }
    destruct emitted; [|intros [= <- <-]; by apply Hsame].
    destruct (events !! rule_resource _ r);
      [|intros [= <- <-]; by apply Hsame].
    intros H%book_events_to_remove_requests. by apply Hsame.
  - destruct (events !! rule_resource _ r); [|intros [= <- <-]; auto].
    intros H%book_events_to_remove_requests. by left.
Qed.

Lemma final_amount_adjusted r amount :
  final_amount r = Ok amount →
  String.eqb (rule_resource _ r) "energy" = false →
  ∃ amount0 sr sl,
    structure_resources s !! rule_resource _ r = Some sr ∧
    limits !! rule_resource _ r = Some sl ∧
    adjust_amount amount0 sr sl = Ok amount.
Proof.
  unfold Guardian.final_amount, NON_ADJUSTABLE_RESOURCES. intros H Hne.
  destruct (policy_amount _ _ _ _ _ r) as [amount0|]; [|done].
  cbn [rbind] in H. rewrite bool_decide_eq_false_2 in H.
  2: { intros Heq%list_elem_of_singleton.
       by rewrite Heq, String.eqb_refl in Hne. }
  unfold getitem in H.
  destruct (structure_resources s !! rule_resource _ r) as [sr|]; [|done].
  destruct (limits !! rule_resource _ r) as [sl|]; [|done].
  cbn [rbind] in H. by exists (rounding_guard amount0), sr, sl.
Qed.

Lemma rule_body_clamped st r out st' :
  Forall clamped (generated_requests st) →
  rule_body st r = (out, st') →
  Forall clamped (generated_requests st').
Proof.
  intros Hall [->|(amount & q & Hamount & -> & Hq & Hres & Henergy)]%rule_body_requests;
    [done|].
  apply Forall_app. split; [done|]. apply Forall_singleton.
  intros Hnone sr sl mn cur mx lo Hsr Hsl Hmn Hcur Hmx Hlo H1 H2 H3.
  destruct (String.eqb (rule_resource _ r) "energy") eqn:He;
    [by rewrite Henergy in Hnone|].
  destruct (final_amount_adjusted _ _ Hamount He)
    as (amount0 & sr' & sl' & Hsr' & Hsl' & Hadj).
  rewrite Hres in Hsr, Hsl. simplify_eq. rewrite Hq.
  by eapply adjust_amount_in_range.
Qed.

Lemma match_rules_clamped rules acc st' :
  (∀ st, acc = Ok st → Forall clamped (generated_requests st)) →
  foldl match_rule acc rules = Ok st' →
  Forall clamped (generated_requests st').
Proof.
  revert acc. induction rules as [|r rules IH]; intros acc Hacc; simpl.
  - intros ->. by apply Hacc.
  - apply IH. intros st1. unfold Guardian.match_rule.
    destruct acc as [st|]; [|done]. simpl.
    destruct (rule_body st r) as [out st2] eqn:Hbody.
    eapply rule_body_clamped in Hbody; [|by apply Hacc].
    destruct out as [|[]]; try done; by intros [= <-].
Qed.



End RequestFacts.

(** ** Worked scenarios *)



(** A request made for [energy] goes out under the resource [cpu] with the
    amount as the policy gave it: [(20 - 12) * 5 = 40] shares on top of 190,
    past the maximum of 200. *)
Example match_rules_and_events_energy_not_clamped :
  sample_match_rules_and_events (application capped_resources)
      {[ "energy" := {| down := 0; up := 3 |} ]} capped_limits ∅
      [EnergyRescaleUp] 0
    = Ok {| generated_requests :=
              [{| request_type := "request";
                  request_resource := "cpu";
                  request_amount := 40;
                  request_structure := "app0";
                  request_action := "energyRescaleUp";
                  request_timestamp := 1546300800;
                  request_structure_type := "application";
                  request_for_energy := Some true;
                  request_host := None;
                  request_host_rescaler_ip := None;
                  request_host_rescaler_port := None |}];
            events_to_remove := {[ "energyBottleneck" := 3 ]};
            clock_tick := 1 |}
  ∧ 190 + 40 > 200.
Proof. split; [by vm_compute|lia]. Qed.


(** * Properties of the event engine *)

(** ** Reduction is a homomorphism (C9) *)

Lemma counters_plus_assoc a b c :
  counters_plus (counters_plus a b) c = counters_plus a (counters_plus b c).
Proof. unfold counters_plus. simpl. f_equal; lia. Qed.

Lemma counters_plus_zero_l a : counters_plus zero_counters a = a.
Proof. destruct a. unfold counters_plus. simpl. f_equal. Qed.

Lemma counters_plus_zero_r a : counters_plus a zero_counters = a.
Proof. destruct a. unfold counters_plus. simpl. f_equal; lia. Qed.

Lemma counters_add_key_delta c key value :
  key = "up" ∨ key = "down" →
  counters_add_key c key value = Ok (counters_plus c (key_delta (key, value))).
Proof.
  intros [->| ->]; unfold counters_add_key, key_delta, counters_plus; simpl;
    do 2 f_equal; lia.
Qed.

Lemma reduce_keys_delta resource l m c :
  Forall (λ kv, kv.1 = "up" ∨ kv.1 = "down") l →
  m !! resource = Some c →
  foldl (reduce_key resource) (Ok m) l =
  Ok (<[resource :=
        counters_plus c
          (foldr (λ kv acc, counters_plus (key_delta kv) acc) zero_counters l)]> m).
Proof.
  intros Hl. revert m c. induction Hl as [|[key value] l Hkey Hl IH];
    intros m c Hc; cbn [foldl foldr].
  - by rewrite counters_plus_zero_r, insert_id.
  - assert (reduce_key resource (Ok m) (key, value)
            = Ok (<[resource := counters_plus c (key_delta (key, value))]> m))
      as ->.
    { unfold reduce_key, getitem. simpl. rewrite Hc. simpl.
      by rewrite (counters_add_key_delta _ _ _ Hkey). }
    rewrite (IH _ _ (lookup_insert_eq _ _ _)).
    by rewrite insert_insert_eq, counters_plus_assoc.
Qed.

Lemma reduce_event_step m ev :
  up_down_event ev → reduce_event m ev = Ok (reduce_step m ev).
Proof.
  intros Hev. unfold reduce_event, reduce_step.
  assert (Forall (λ kv : string * Z, kv.1 = "up" ∨ kv.1 = "down")
            (map_to_list (event_scale ev))) as Hkeys.
  { apply Forall_forall. intros [key value] Hin%elem_of_map_to_list.
    apply Hev. by exists value. }
  destruct (m !! event_resource ev) as [c|] eqn:Hc; simpl.
  - by apply reduce_keys_delta.
  - rewrite (reduce_keys_delta _ _ _ zero_counters Hkeys)
      by apply lookup_insert_eq.
    by rewrite insert_insert_eq.
Qed.

Lemma reduce_events_steps evs m :
  Forall up_down_event evs →
  foldl (λ acc ev, (events_reduced <- acc ;; reduce_event events_reduced ev))
    (Ok m) evs
  = Ok (foldl reduce_step m evs).
Proof.
  intros Hevs. revert m. induction Hevs as [|ev evs Hev Hevs IH]; intros m.
  - done.
  - simpl. rewrite (reduce_event_step _ _ Hev). apply IH.
Qed.

Lemma reduce_step_merge a b ev :
  reduce_step (merge_counters a b) ev = merge_counters a (reduce_step b ev).
Proof.
  unfold reduce_step, merge_counters. apply map_eq. intros res.
  repeat (rewrite lookup_union_with || rewrite lookup_insert).
  case_decide as Hres; [subst res|done].
  destruct (a !! event_resource ev) as [ca|], (b !! event_resource ev) as [cb|];
    simpl; f_equal;
    by rewrite ?counters_plus_assoc, ?counters_plus_zero_l.
Qed.

Lemma reduce_steps_merge evs a b :
  foldl reduce_step (merge_counters a b) evs
  = merge_counters a (foldl reduce_step b evs).
Proof.
  revert b. induction evs as [|ev evs IH]; intros b; simpl; [done|].
  by rewrite reduce_step_merge, IH.
Qed.

(** C9.  On events whose counters are keyed by [up] and [down], the
    reduction of a concatenation is the componentwise sum of the two
    reductions, none of which raises. *)
Theorem reduce_structure_events_app (A B : list event) :
  Forall up_down_event A → Forall up_down_event B →
  ∃ ra rb,
    reduce_structure_events A = Ok ra ∧
    reduce_structure_events B = Ok rb ∧
    reduce_structure_events (A ++ B) = Ok (merge_counters ra rb).
Proof.
  intros HA HB. unfold reduce_structure_events.
  exists (foldl reduce_step ∅ A), (foldl reduce_step ∅ B).
  rewrite foldl_app, !reduce_events_steps by done.
  repeat split.
  rewrite <- reduce_steps_merge. do 2 f_equal.
  unfold merge_counters. by rewrite (right_id ∅ _).
Qed.

Lemma up_event_up_down resource n : up_down_event (up_event resource n).
Proof.
  intros key [v Hv]. simpl in Hv. apply lookup_singleton_Some in Hv as [<- _].
  by left.
Qed.

Lemma down_event_up_down resource n : up_down_event (down_event resource n).
Proof.
  intros key [v Hv]. simpl in Hv. apply lookup_singleton_Some in Hv as [<- _].
  by right.
Qed.

(** Two events and two more, on the cpu and on the memory. *)
Lemma reduce_structure_events_app_witness :
  ∃ ra rb,
    reduce_structure_events [up_event "cpu" 1; down_event "mem" 1] = Ok ra ∧
    reduce_structure_events [up_event "cpu" 1; up_event "cpu" 1] = Ok rb ∧
    reduce_structure_events
      ([up_event "cpu" 1; down_event "mem" 1]
         ++ [up_event "cpu" 1; up_event "cpu" 1])
    = Ok (merge_counters ra rb).
Proof.
  apply (reduce_structure_events_app
           [up_event "cpu" 1; down_event "mem" 1]
           [up_event "cpu" 1; up_event "cpu" 1]);
    repeat apply Forall_cons_2; try apply Forall_nil_2;
    first [apply up_event_up_down | apply down_event_up_down].
Defined.

(** Three [up] events on the cpu, as the first scenario feeds them. *)
Example reduce_structure_events_three_up :
  reduce_structure_events [up_event "cpu" 1; up_event "cpu" 1; up_event "cpu" 1]
  = Ok three_up.
Proof. by vm_compute. Qed.

(** A counter under another key makes the reduction raise. *)
Example reduce_structure_events_foreign_key :
  reduce_structure_events
    [{| event_name := "e"; event_resource := "cpu"; event_structure := "node0";
        event_scale := {[ "sideways" := 1 ]}; event_timestamp := 0 |}]
  = Raise (KeyError "sideways").
Proof. by vm_compute. Qed.

(** ** Aging (C6) *)

Section Aging.

Variable time_time : nat → Q.

Lemma sort_event_stale event_timeout valid invalid tick ev :
  sort_event time_time event_timeout (valid, invalid, tick) ev =
  if decide (stale (time_time tick) event_timeout ev)
  then (valid, invalid ++ [ev], S tick)
  else (valid ++ [ev], invalid, S tick).
Proof.
  unfold sort_event, stale.
  destruct (Num.ltb _ _) eqn:E;
    [apply ltb_lt in E|apply ltb_ge in E];
    rewrite to_Q_sub in E; simpl in E; case_decide as H; unfold stale in H;
    try done; exfalso; lra.
Qed.

Lemma sort_events_from event_timeout evs valid invalid tick :
  foldl (sort_event time_time event_timeout) (valid, invalid, tick) evs =
  (valid ++ (filter (λ p, ¬ stale (time_time p.1) event_timeout p.2)
               (with_readings tick evs)).*2,
   invalid ++ (filter (λ p, stale (time_time p.1) event_timeout p.2)
                 (with_readings tick evs)).*2,
   (tick + length evs)%nat).
Proof.
  revert valid invalid tick.
  induction evs as [|ev evs IH]; intros valid invalid tick.
  - simpl. rewrite !app_nil_r. do 2 f_equal. lia.
  - cbn [foldl]. rewrite sort_event_stale.
    unfold with_readings. cbn [length seq zip zip_with].
    assert (stale (time_time tick) event_timeout ev
            ∨ ¬ stale (time_time tick) event_timeout ev) as [Hs|Hs]
      by (destruct (decide (stale (time_time tick) event_timeout ev)); auto).
    + rewrite decide_True by done. rewrite IH. unfold with_readings.
      rewrite (filter_cons_True (λ p, stale (time_time p.1) event_timeout p.2))
        by done.
      rewrite (filter_cons_False (λ p, ¬ stale (time_time p.1) event_timeout p.2))
        by (simpl; tauto).
      cbn [fmap list_fmap snd]. rewrite <- app_assoc.
      f_equal; try done; lia.
    + rewrite decide_False by done. rewrite IH. unfold with_readings.
      rewrite (filter_cons_False (λ p, stale (time_time p.1) event_timeout p.2))
        by done.
      rewrite (filter_cons_True (λ p, ¬ stale (time_time p.1) event_timeout p.2))
        by done.
      cbn [fmap list_fmap snd]. rewrite <- app_assoc.
      f_equal; try done; lia.
Qed.

(** When every reading of the call gives the same time, the readings can
    be forgotten. *)
Lemma filter_constant_readings (P : Q → event → Prop)
  `{∀ now ev, Decision (P now ev)} now tick evs :
  (∀ now1 now2 ev, (now1 == now2)%Q → P now1 ev ↔ P now2 ev) →
  (∀ k, (k < length evs)%nat → (time_time (tick + k) == now)%Q) →
  (filter (λ p, P (time_time p.1) p.2) (with_readings tick evs)).*2
  = filter (P now) evs.
Proof.
  intros Hext. revert tick.
  induction evs as [|ev evs IH]; intros tick Hclock; [done|].
  unfold with_readings. cbn [length seq zip zip_with].
  assert (P (time_time tick) ev ↔ P now ev) as Hev.
  { apply Hext. rewrite <- (Hclock 0%nat) by (simpl; lia).
    by replace (tick + 0)%nat with tick by lia. }
  assert ((filter (λ p, P (time_time p.1) p.2) (with_readings (S tick) evs)).*2
          = filter (P now) evs) as Hrest.
  { apply IH. intros k Hk. rewrite <- (Hclock (S k)) by (simpl; lia).
    by replace (S tick + k)%nat with (tick + S k)%nat by lia. }
  unfold with_readings in Hrest.
  destruct (decide (P now ev)) as [Hp|Hp].
  - rewrite (filter_cons_True (P now)) by done.
    rewrite (filter_cons_True (λ p, P (time_time p.1) p.2)) by (simpl; tauto).
    cbn [fmap list_fmap snd]. by rewrite <- Hrest.
  - rewrite (filter_cons_False (P now)) by done.
    rewrite (filter_cons_False (λ p, P (time_time p.1) p.2)) by (simpl; tauto).
    by rewrite <- Hrest.
Qed.


End Aging.


(** The aging scenario under a clock that stands still: of the events aged
    5, 15, 35, 45 and 60 seconds, the first three are kept. *)
Example sort_events_scenario :
  let aged (n : Z) :=
    {| event_name := "cpuBottleneck"; event_resource := "cpu";
       event_structure := "node0"; event_scale := {[ "up" := 1 ]};
       event_timestamp := 1546300800 - n |} in
  sort_events sample_clock [aged 5; aged 15; aged 35; aged 45; aged 60] 40 0
  = ([aged 5; aged 15; aged 35], [aged 45; aged 60], 5%nat).
Proof. by vm_compute. Qed.

(** * Properties of the store facade ([__resilient_update_doc]) *)

Lemma last_cons_default {A : Type} (a d : A) (l : list A) :
  List.last (a :: l) d = List.last l a.
Proof.
  revert a d. induction l as [|b l IH]; intros a d; [done|].
  change (List.last (a :: b :: l) d) with (List.last (b :: l) d).
  by rewrite !IH.
Qed.

(** Conflicts are retried while [previous_tries] is under the maximum: after
    [n] conflicts in a row the call goes on with the last revision read
    back and everything else of the caller's document. *)
Lemma resilient_update_doc_conflicts revs rest doc tries backoff :
  0 <= tries → tries + Z.of_nat (length revs) <= MAX_UPDATE_TRIES →
  resilient_update_doc ((Status409 <$> revs) ++ rest) doc tries backoff =
  (λ e, Nat.iter (length revs) posted e) <$>
    resilient_update_doc rest (with_rev doc (List.last revs (doc_rev doc)))
      (tries + Z.of_nat (length revs))
      (match revs with [] => backoff | _ => 2 end).
Proof.
  revert doc tries backoff.
  induction revs as [|rev revs IH]; intros doc tries backoff Htries Hmax.
  - simpl. destruct doc. unfold with_rev. simpl.
    replace (tries + Z.of_nat 0) with tries by lia.
    by destruct (resilient_update_doc rest _ tries backoff).
  - cbn [fmap list_fmap app length resilient_update_doc].
    replace ((0 <=? tries) && (tries <? MAX_UPDATE_TRIES)) with true.
    2: { symmetry. apply andb_true_iff. split; [apply Z.leb_le|apply Z.ltb_lt];
         simpl in Hmax; lia. }
    change (list_fmap string response Status409 revs) with (Status409 <$> revs).
    rewrite IH by (simpl in Hmax; simpl; lia).
    replace (tries + 1 + Z.of_nat (length revs))
      with (tries + Z.of_nat (S (length revs))) by lia.
    rewrite last_cons_default. simpl (doc_rev _).
    change (with_rev _ (List.last revs rev))
      with (with_rev doc (List.last revs rev)).
    assert (match revs with [] => 2 | _ => 2 end = 2) as -> by (by destruct revs).
    destruct (resilient_update_doc rest _ _ 2); [|done].
    simpl. by f_equal.
Qed.

(** A missing database is waited for and retried, whatever [previous_tries]
    has come to. *)
Lemma resilient_update_doc_missing n rest doc tries :
  resilient_update_doc (replicate n Status404 ++ rest) doc tries 2 =
  (λ e, Nat.iter n (λ e, posted (slept 2 e)) e) <$>
    resilient_update_doc rest doc (tries + Z.of_nat n) 2.
Proof.
  revert tries. induction n as [|n IH]; intros tries.
  - simpl. replace (tries + Z.of_nat 0) with tries by lia.
    by destruct (resilient_update_doc rest doc tries 2).
  - cbn [replicate app resilient_update_doc]. rewrite IH.
    replace (tries + 1 + Z.of_nat n) with (tries + Z.of_nat (S n)) by lia.
    by destruct (resilient_update_doc rest doc _ 2).
Qed.

Lemma iter_posted_slept n e :
  Nat.iter n (λ e, posted (slept 2 e)) e =
  {| returned := returned e; doc_after := doc_after e;
     sleeps := replicate n 2 ++ sleeps e; posts := (n + posts e)%nat |}.
Proof.
  induction n as [|n IH]; [by destruct e|].
  simpl. rewrite IH. done.
Qed.

Lemma iter_posted n e :
  Nat.iter n posted e =
  {| returned := returned e; doc_after := doc_after e;
     sleeps := sleeps e; posts := (n + posts e)%nat |}.
Proof.
  induction n as [|n IH]; [by destruct e|].
  simpl. rewrite IH. done.
Qed.

(** Up to five conflicts in a row are absorbed: the update succeeds with
    the revision read back last, the fields of the caller untouched. *)
Lemma update_doc_conflicts_absorbed revs doc :
  (length revs <= 5)%nat →
  update_doc ((Status409 <$> revs) ++ [Status200]) doc =
  Some {| returned := Ok (Some true);
          doc_after := with_rev doc (List.last revs (doc_rev doc));
          sleeps := [];
          posts := S (length revs) |}.
Proof.
  intros Hlen. unfold update_doc.
  rewrite resilient_update_doc_conflicts by (unfold MAX_UPDATE_TRIES; lia).
  simpl. rewrite iter_posted. simpl. do 2 f_equal. lia.
Qed.

(** The sixth conflict in a row is raised. *)
Lemma update_doc_sixth_conflict revs rev rest doc :
  length revs = 5%nat →
  update_doc ((Status409 <$> revs) ++ Status409 rev :: rest) doc =
  Some {| returned := Raise (HTTPError 409);
          doc_after := with_rev doc (List.last revs (doc_rev doc));
          sleeps := [];
          posts := 6 |}.
Proof.
  intros Hlen. unfold update_doc.
  rewrite resilient_update_doc_conflicts by (unfold MAX_UPDATE_TRIES; lia).
  rewrite Hlen. simpl. done.
Qed.

(** C4, where the code departs from it.  However many times the store
    answers that the database is missing, the facade waits two seconds and
    posts again: [n] such answers followed by a success make [n] pauses and
    [n + 1] requests, for every [n] and not only up to five. *)
Theorem update_doc_missing_database_unbounded (n : nat) (doc : document) :
  update_doc (replicate n Status404 ++ [Status200]) doc =
  Some {| returned := Ok (Some true);
          doc_after := doc;
          sleeps := replicate n 2;
          posts := S n |}.
Proof.
  unfold update_doc. rewrite resilient_update_doc_missing. simpl.
  rewrite iter_posted_slept. simpl.
  rewrite app_nil_r. do 2 f_equal. lia.
Qed.

(** Seven answers of a missing database and then a success: seven pauses,
    eight requests, and the update goes through. *)
Example update_doc_seven_missing :
  update_doc (replicate 7 Status404 ++ [Status200]) limits_document =
  Some {| returned := Ok (Some true); doc_after := limits_document;
          sleeps := [2; 2; 2; 2; 2; 2; 2]; posts := 8 |}.
Proof. by vm_compute. Qed.

(** The pauses count against the conflicts all the same: after five of
    them the first conflict is raised. *)
Example update_doc_missing_then_conflict :
  update_doc (replicate 5 Status404 ++ [Status409 "2-b"; Status200])
    limits_document =
  Some {| returned := Raise (HTTPError 409); doc_after := limits_document;
          sleeps := [2; 2; 2; 2; 2]; posts := 6 |}.
Proof. by vm_compute. Qed.

(** * Further properties of the state repair *)

Lemma check_invalid_values_inner v1 l1 v2 l2 res :
  l1 ≠ "current" →
  check_invalid_values v1 l1 v2 l2 res = Ok tt ∨
  check_invalid_values v1 l1 v2 l2 res = Raise ValueError.
Proof.
  intros Hl. unfold check_invalid_values.
  destruct (String.eqb_spec l1 "current") as [|_]; [done|].
  rewrite andb_false_r. simpl. destruct (v2 <? v1); auto.
Qed.

(** With every value but [upper] and [lower] there and [current] not above
    [max], the validation accepts the state or refuses it with a
    [ValueError]: the repair is tried. *)
Lemma check_repairable r l resource :
  repairable_state r l resource →
  check_invalid_container_state r l resource = Ok tt ∨
  check_invalid_container_state r l resource = Raise ValueError.
Proof.
  intros (res & lim & mx & cur & mn & b & Hr & Hl & Hmx & Hcur & Hmn & Hb
          & Hle & _).
  unfold check_invalid_container_state, try_get_value, getitem,
    check_unset_values.
  rewrite Hr, Hl, Hb, Hmx, Hcur, Hmn. cbn [rbind].
  destruct (lim !! "upper") as [up|]; [|by right].
  destruct (lim !! "lower") as [lo|]; [|by right]. cbn [rbind].
  rewrite (proj2 (check_invalid_values_ok cur "current" mx "max" resource) Hle).
  cbn [rbind].
  destruct (check_invalid_values_inner up "upper" cur "current" resource)
    as [-> | ->]; [done| |by right]. cbn [rbind].
  destruct (check_invalid_values_inner lo "lower" up "upper" resource)
    as [-> | ->]; [done| |by right]. cbn [rbind].
  destruct (cur - b <? up); [by right|].
  destruct (up <? cur - b); [by right|by left].
Qed.

(** The repair of a repairable state gives a state that is accepted. *)
Lemma repair_repairable st resource :
  repairable_state (resources st) (limits st) resource →
  ∃ st1, repair_limits st resource = (Ok tt, st1) ∧
    valid_resource_state (resources st1) (limits st1) resource.
Proof.
  intros (res & lim & mx & cur & mn & b & Hr & Hl & Hmx & Hcur & Hmn & Hb
          & Hle & Hpos).
  eexists. split.
  - apply repair_limits_ok. exists lim, b, res, cur. by repeat split.
  - simpl. exists res, (<["lower" := cur - b - b]> (<["upper" := cur - b]> lim)),
      mx, cur, mn, (cur - b), (cur - b - b), b.
    rewrite lookup_insert_eq.
    repeat split; try done; try lia.
    + by rewrite lookup_insert_ne, lookup_insert_eq.
    + by rewrite lookup_insert_eq.
    + by rewrite !lookup_insert_ne.
Qed.

Lemma valid_repairable r l resource :
  valid_resource_state r l resource → repairable_state r l resource.
Proof.
  intros (res & lim & mx & cur & mn & up & lo & b & Hr & Hl & Hmx & Hcur & Hmn
          & Hup & Hlo & Hb & H1 & H2 & H3 & H4).
  exists res, lim, mx, cur, mn, b. repeat split; try done. lia.
Qed.

(** X1.  The validation accepts a state exactly when the resource is in
    both dictionaries with all six values, [current <= max],
    [lower <= upper], [upper = current - boundary] and a boundary that is
    not negative (that is, [upper <= current]); [min] has to be there and
    is compared with nothing. *)
Theorem check_invalid_container_state_accepts
  (r l : gmap string (gmap string Z)) (resource : string) :
  check_invalid_container_state r l resource = Ok tt ↔
  ∃ res lim mx cur mn up lo b,
    r !! resource = Some res ∧ l !! resource = Some lim ∧
    res !! "max" = Some mx ∧ res !! "current" = Some cur ∧
    res !! "min" = Some mn ∧
    lim !! "upper" = Some up ∧ lim !! "lower" = Some lo ∧
    lim !! "boundary" = Some b ∧
    cur <= mx ∧ lo <= up ∧ up = cur - b ∧ 0 <= b.
Proof.
  rewrite check_ok_valid. unfold valid_resource_state.
  split; intros (res & lim & mx & cur & mn & up & lo & b & Hr & Hl & Hmx & Hcur
                 & Hmn & Hup & Hlo & Hb & H);
    exists res, lim, mx, cur, mn, up, lo, b; repeat (split; [done|]); lia.
Qed.

(** X2.  The loop over one resource ends without an exception exactly on
    the repairable states: missing or inverted [upper] and [lower] are
    mended, while a missing value elsewhere, [current] above [max] or a
    boundary below zero are not. *)
Theorem adjust_resource_succeeds_iff (st : container_state) (resource : string) :
  (∃ st' n, adjust_resource st resource = Some (LoopEnd (Ok tt) st' n)) ↔
  repairable_state (resources st) (limits st) resource.
Proof.
  split.
  - intros (st' & n & Hrun).
    pose proof (adjust_resource_ok_valid _ _ _ _ Hrun) as Hvalid.
    apply adjust_resource_adjusted, adjusted_writes_only in Hrun
      as (Hres & _ & Hsome & Hkeys). simpl in *.
    apply valid_repairable in Hvalid
      as (res & lim & mx & cur & mn & b & Hr & Hl & Hmx & Hcur & Hmn & Hb
          & Hle & Hpos).
    rewrite Hres in Hr.
    destruct (proj1 (Hsome resource)) as [lim0 Hl0]; [by rewrite Hl|].
    exists res, lim0, mx, cur, mn, b. repeat (split; [done|]).
    split; [|done].
    specialize (Hkeys resource "boundary" ltac:(done) ltac:(done)).
    rewrite Hl, Hl0 in Hkeys. simpl in Hkeys. congruence.
  - intros Hrep. rewrite adjust_resource_cases.
    destruct (check_repairable _ _ _ Hrep) as [-> | ->]; [by eauto|].
    destruct (repair_repairable _ _ Hrep) as (st1 & -> & Hvalid).
    apply check_ok_valid in Hvalid as ->. eauto.
Qed.

(** X3.  On a repairable state that the validation refuses, the loop takes
    two iterations and leaves [upper] one boundary and [lower] two
    boundaries under [current], every other field and every other entry
    as it was. *)
Theorem adjust_resource_repairs
  (st : container_state) (resource : string)
  (res lim : gmap string Z) (cur b : Z) :
  repairable_state (resources st) (limits st) resource →
  check_invalid_container_state (resources st) (limits st) resource ≠ Ok tt →
  resources st !! resource = Some res → res !! "current" = Some cur →
  limits st !! resource = Some lim → lim !! "boundary" = Some b →
  adjust_resource st resource =
  Some (LoopEnd (Ok tt)
    {| resources := resources st;
       limits := <[resource :=
           <["lower" := cur - b - b]> (<["upper" := cur - b]> lim)]>
         (limits st) |} 2).
Proof.
  intros Hrep Hrefused Hr Hcur Hl Hb. rewrite adjust_resource_cases.
  destruct (check_repairable _ _ _ Hrep) as [Hc|Hc]; [done|]. rewrite Hc.
  destruct (repair_repairable _ _ Hrep) as (st1 & Hrepair & Hvalid).
  rewrite Hrepair. apply check_ok_valid in Hvalid as ->.
  apply repair_limits_ok in Hrepair
    as (lim' & b' & res' & cur' & Hl' & Hb' & Hr' & Hcur' & ->).
  by simplify_eq.
Qed.

Lemma adjust_resource_repairs_witness :
  adjust_resource {| resources := node0_resources; limits := broken_limits |}
    "cpu" =
  Some (LoopEnd (Ok tt)
    {| resources := node0_resources;
       limits := <["cpu" :=
           <["lower" := 140 - 20 - 20]> (<["upper" := 140 - 20]>
             (<["lower" := 200]> (<["upper" := 200]> {[ "boundary" := 20 ]})))]>
         broken_limits |} 2).
Proof.
  apply (adjust_resource_repairs
    {| resources := node0_resources; limits := broken_limits |} "cpu"
    (<["min" := 50]> (<["max" := 200]> {[ "current" := 140 ]}))
    (<["lower" := 200]> (<["upper" := 200]> {[ "boundary" := 20 ]})) 140 20);
    try (by vm_compute).
  exists (<["min" := 50]> (<["max" := 200]> {[ "current" := 140 ]})),
    (<["lower" := 200]> (<["upper" := 200]> {[ "boundary" := 20 ]})),
    200, 140, 50, 20.
  repeat split; try (by vm_compute); lia.
Defined.

Lemma adjust_resources_all_valid R st :
  (∀ resource, resource ∈ R →
     valid_resource_state (resources st) (limits st) resource) →
  adjust_resources st R = Some (Ok tt, st).
Proof.
  induction R as [|resource R IH]; intros Hvalid; [done|].
  simpl. rewrite adjust_resource_valid by (apply Hvalid, list_elem_of_here).
  apply IH. intros res Hres. by apply Hvalid, list_elem_of_further.
Qed.

(** X4.  A run that has returned needs no second one: handed its own
    result, [adjust_container_state] returns again and changes nothing. *)
Theorem adjust_container_state_idempotent
  (r l : gmap string (gmap string Z)) (R : list string)
  (st' : container_state) :
  adjust_container_state r l R = Some (Ok tt, st') →
  adjust_container_state (resources st') (limits st') R = Some (Ok tt, st').
Proof.
  unfold adjust_container_state. intros Hrun.
  pose proof (adjust_resources_ok_valid _ _ _ Hrun) as Hvalid.
  replace {| resources := resources st'; limits := limits st' |} with st'
    by (by destruct st').
  by apply adjust_resources_all_valid.
Qed.

Lemma adjust_container_state_idempotent_witness :
  adjust_container_state
    (resources {| resources := node0_resources; limits := mended_limits |})
    (limits {| resources := node0_resources; limits := mended_limits |})
    ["cpu"]
  = Some (Ok tt, {| resources := node0_resources; limits := mended_limits |}).
Proof.
  apply (adjust_container_state_idempotent node0_resources broken_limits).
  by vm_compute.
Defined.

Lemma adjust_resources_app A B st :
  adjust_resources st (A ++ B) =
  match adjust_resources st A with
  | Some (Ok _, st1) => adjust_resources st1 B
  | other => other
  end.
Proof.
  revert st. induction A as [|resource A IH]; intros st; [done|].
  simpl. destruct (adjust_resource st resource) as [[[[]|e] st1 n]|]; auto.
Qed.

(** X5.  A listed resource that has no limits stops the run with a
    [RuntimeError] that names it: the resources listed before it have been
    adjusted, those listed after it are not looked at. *)
Theorem adjust_container_state_stops_at_missing_limits
  (r l : gmap string (gmap string Z)) (A B : list string) (resource : string)
  (st1 : container_state) :
  adjust_container_state r l A = Some (Ok tt, st1) →
  is_Some (r !! resource) → l !! resource = None →
  adjust_container_state r l (A ++ resource :: B) =
  Some (Raise (RuntimeError
          ("limit values not available for resource " ++ resource)%string),
        st1).
Proof.
  unfold adjust_container_state. intros Hrun [res Hr] Hl.
  rewrite adjust_resources_app, Hrun.
  apply adjust_resources_writes_only in Hrun as (Hres & _ & Hsome & _).
  simpl in *.
  assert (limits st1 !! resource = None) as Hl1.
  { destruct (limits st1 !! resource) eqn:E; [|done].
    destruct (proj1 (Hsome resource)) as [? ?]; [by rewrite E|congruence]. }
  rewrite adjust_resource_cases.
  unfold check_invalid_container_state. by rewrite Hres, Hr, Hl1.
Qed.

Lemma adjust_container_state_stops_at_missing_limits_witness :
  adjust_container_state node0_resources broken_limits
    ([] ++ "cpu" :: [])
  = Some (Ok tt, {| resources := node0_resources; limits := mended_limits |})
  ∧ adjust_container_state
      (<["mem" := {[ "current" := 3072 ]}]> node0_resources) broken_limits
      (["cpu"] ++ "mem" :: ["cpu"])
    = Some (Raise (RuntimeError
              ("limit values not available for resource " ++ "mem")%string),
            {| resources := <["mem" := {[ "current" := 3072 ]}]> node0_resources;
               limits := mended_limits |}).
Proof.
  split; [by vm_compute|].
  apply (adjust_container_state_stops_at_missing_limits
           (<["mem" := {[ "current" := 3072 ]}]> node0_resources)
           broken_limits ["cpu"] ["cpu"] "mem");
    [by vm_compute | eexists; by vm_compute | by vm_compute].
Defined.

(** X6.  With every value there, a [current] above [max] is not repaired:
    the first validation raises the [RuntimeError] of the limit above the
    maximum and the limits stay as they were. *)
Theorem adjust_resource_above_max
  (st : container_state) (resource : string)
  (res lim : gmap string Z) (mx cur mn up lo b : Z) :
  resources st !! resource = Some res → limits st !! resource = Some lim →
  res !! "max" = Some mx → res !! "current" = Some cur →
  res !! "min" = Some mn →
  lim !! "upper" = Some up → lim !! "lower" = Some lo →
  lim !! "boundary" = Some b →
  mx < cur →
  adjust_resource st resource =
  Some (LoopEnd
    (Raise (RuntimeError
       ("somehow this structure has a resource limit applied higher than maximum for "
          ++ resource)%string)) st 0).
Proof.
  intros Hr Hl Hmx Hcur Hmn Hup Hlo Hb Habove.
  rewrite adjust_resource_cases.
  unfold check_invalid_container_state, try_get_value, getitem,
    check_unset_values.
  rewrite Hr, Hl, Hb, Hmx, Hcur, Hup, Hlo, Hmn. cbn [rbind].
  unfold check_invalid_values at 1.
  replace (mx <? cur) with true by (symmetry; by apply Z.ltb_lt).
  done.
Qed.

Lemma adjust_resource_above_max_witness :
  adjust_resource {| resources := overshot_resources; limits := node0_limits |}
    "cpu" =
  Some (LoopEnd
    (Raise (RuntimeError
       ("somehow this structure has a resource limit applied higher than maximum for "
          ++ "cpu")%string))
    {| resources := overshot_resources; limits := node0_limits |} 0).
Proof.
  apply (adjust_resource_above_max
    {| resources := overshot_resources; limits := node0_limits |} "cpu"
    (<["min" := 50]> (<["max" := 200]> {[ "current" := 240 ]}))
    (<["lower" := 80]> (<["upper" := 120]> {[ "boundary" := 20 ]}))
    200 240 50 120 80 20);
    try (by vm_compute); lia.
Defined.

(** X7.  A boundary below zero cannot be mended: whatever [upper] and
    [lower] were, the repair puts [upper] above [current], every validation
    refuses that, and the tenth iteration raises
    [RuntimeError("Error fixing limits")] with the limits left as the repair
    wrote them. *)
Theorem adjust_resource_negative_boundary
  (st : container_state) (resource : string)
  (res lim : gmap string Z) (mx cur mn b : Z) :
  resources st !! resource = Some res → limits st !! resource = Some lim →
  res !! "max" = Some mx → res !! "current" = Some cur →
  res !! "min" = Some mn → lim !! "boundary" = Some b →
  cur <= mx → b < 0 →
  adjust_resource st resource =
  Some (LoopEnd (Raise error_fixing_limits)
    {| resources := resources st;
       limits := <[resource :=
           <["lower" := cur - b - b]> (<["upper" := cur - b]> lim)]>
         (limits st) |} 10).
Proof.
  intros Hr Hl Hmx Hcur Hmn Hb Hle Hneg.
  assert (∀ l', l' !! resource = Some lim ∨
            l' !! resource
              = Some (<["lower" := cur - b - b]> (<["upper" := cur - b]> lim)) →
          check_invalid_container_state (resources st) l' resource
            = Raise ValueError) as Hrefused.
  { intros l' Hl'.
    assert (∃ lim', l' !! resource = Some lim' ∧ lim' !! "boundary" = Some b)
      as (lim' & Hlim' & Hb').
    { destruct Hl' as [->| ->]; eexists; (split; [done|]);
        by rewrite ?lookup_insert_ne. }
    unfold check_invalid_container_state, try_get_value, getitem,
      check_unset_values.
    rewrite Hr, Hlim', Hb', Hmx, Hcur, Hmn. cbn [rbind].
    destruct (lim' !! "upper") as [up|]; [|done].
    destruct (lim' !! "lower") as [lo|]; [|done]. cbn [rbind].
    rewrite (proj2 (check_invalid_values_ok cur "current" mx "max" resource) Hle).
    cbn [rbind].
    destruct (check_invalid_values_inner up "upper" cur "current" resource)
      as [Hup | ->]; [done| |done].
    rewrite Hup. apply check_invalid_values_ok in Hup. cbn [rbind].
    destruct (check_invalid_values_inner lo "lower" up "upper" resource)
      as [-> | ->]; [done| |done]. cbn [rbind].
    destruct (Z.ltb_spec (cur - b) up); [done|].
    destruct (Z.ltb_spec up (cur - b)); [done|lia]. }
  rewrite adjust_resource_cases.
  rewrite (Hrefused (limits st)) by auto.
  assert (repair_limits st resource =
    (Ok tt, {| resources := resources st;
               limits := <[resource :=
                   <["lower" := cur - b - b]> (<["upper" := cur - b]> lim)]>
                 (limits st) |})) as ->.
  { apply repair_limits_ok. by exists lim, b, res, cur. }
  cbn [resources limits]. rewrite Hrefused; [done|].
  right. apply lookup_insert_eq.
Qed.

Lemma adjust_resource_negative_boundary_witness :
  adjust_resource {| resources := node0_resources; limits := inverted_limits |}
    "cpu" =
  Some (LoopEnd (Raise error_fixing_limits)
    {| resources := node0_resources;
       limits := <["cpu" :=
           <["lower" := 140 - -20 - -20]> (<["upper" := 140 - -20]>
             (<["lower" := 80]> (<["upper" := 120]> {[ "boundary" := -20 ]})))]>
         inverted_limits |} 10).
Proof.
  apply (adjust_resource_negative_boundary
    {| resources := node0_resources; limits := inverted_limits |} "cpu"
    (<["min" := 50]> (<["max" := 200]> {[ "current" := 140 ]}))
    (<["lower" := 80]> (<["upper" := 120]> {[ "boundary" := -20 ]}))
    200 140 50 (-20));
    try (by vm_compute); lia.
Defined.

(** * Further properties of the amounts *)

Lemma ltb_int x y : Num.ltb (Int x) (Int y) = (x <? y).
Proof.
  unfold Num.ltb, Z.ltb, Qcompare. simpl. by rewrite !Z.mul_1_r.
Qed.

(** What [adjust_amount] returns on an integer amount, where Python
    computes exactly. *)
Lemma adjust_amount_int amount sr sl mn cur mx lo :
  sr !! "min" = Some mn → sr !! "current" = Some cur →
  sr !! "max" = Some mx → sl !! "lower" = Some lo →
  adjust_amount (Int amount) sr sl =
  Ok (Int (if lo + amount <? mn then amount + (mn - (lo + amount))
           else if mx <? cur + amount then amount - (cur + amount - mx)
           else amount)).
Proof.
  intros Hmn Hcur Hmx Hlo. unfold adjust_amount, getitem.
  rewrite Hmn, Hcur, Hmx, Hlo. cbn [rbind Num.add Num.sub].
  rewrite !ltb_int.
  by destruct (lo + amount <? mn), (mx <? cur + amount).
Qed.

(** X8.  The two corrections of [adjust_amount] on an integer amount, as
    its docstring has them: an amount that would take [lower] under [min]
    is replaced by the one that puts [lower] at [min]; otherwise an amount
    that would take [current] over [max] is replaced by the one that puts
    [current] at [max]; any other amount is returned as it is. *)
Theorem adjust_amount_branches
  (amount : Z) (sr sl : gmap string Z) (mn cur mx lo : Z) :
  sr !! "min" = Some mn → sr !! "current" = Some cur →
  sr !! "max" = Some mx → sl !! "lower" = Some lo →
  ∃ a, adjust_amount (Int amount) sr sl = Ok (Int a) ∧
    (lo + amount < mn → lo + a = mn) ∧
    (mn <= lo + amount → mx < cur + amount → cur + a = mx) ∧
    (mn <= lo + amount → cur + amount <= mx → a = amount).
Proof.
  intros Hmn Hcur Hmx Hlo.
  rewrite (adjust_amount_int amount sr sl mn cur mx lo Hmn Hcur Hmx Hlo).
  eexists. split; [reflexivity|].
  destruct (Z.ltb_spec (lo + amount) mn) as [H1|H1];
    [|destruct (Z.ltb_spec mx (cur + amount)) as [H2|H2]];
    (split; [|split]); intros; lia.
Qed.

Lemma adjust_amount_branches_witness :
  ∃ a, adjust_amount (Int 70)
         (<["min" := 50]> (<["max" := 200]> {[ "current" := 140 ]}))
         (<["lower" := 80]> (<["upper" := 120]> {[ "boundary" := 20 ]}))
       = Ok (Int a) ∧
    (80 + 70 < 50 → 80 + a = 50) ∧
    (50 <= 80 + 70 → 200 < 140 + 70 → 140 + a = 200) ∧
    (50 <= 80 + 70 → 140 + 70 <= 200 → a = 70).
Proof.
  apply (adjust_amount_branches 70
    (<["min" := 50]> (<["max" := 200]> {[ "current" := 140 ]}))
    (<["lower" := 80]> (<["upper" := 120]> {[ "boundary" := 20 ]}))
    50 140 200 80); by vm_compute.
Defined.

(** X9.  Under the chain [min <= lower <= current <= max] an adjusted
    integer amount needs no second adjustment: [adjust_amount] returns it
    as it is. *)
Theorem adjust_amount_idempotent
  (amount : Z) (a : number) (sr sl : gmap string Z) (mn cur mx lo : Z) :
  sr !! "min" = Some mn → sr !! "current" = Some cur →
  sr !! "max" = Some mx → sl !! "lower" = Some lo →
  mn <= lo → lo <= cur → cur <= mx →
  adjust_amount (Int amount) sr sl = Ok a →
  adjust_amount a sr sl = Ok a.
Proof.
  intros Hmn Hcur Hmx Hlo H1 H2 H3.
  rewrite (adjust_amount_int amount sr sl mn cur mx lo Hmn Hcur Hmx Hlo).
  intros [= <-].
  rewrite (adjust_amount_int _ sr sl mn cur mx lo Hmn Hcur Hmx Hlo).
  do 2 f_equal.
  destruct (Z.ltb_spec (lo + amount) mn) as [L1|L1];
    [|destruct (Z.ltb_spec mx (cur + amount)) as [L2|L2]].
  - destruct (Z.ltb_spec (lo + (amount + (mn - (lo + amount)))) mn); [lia|].
    destruct (Z.ltb_spec mx (cur + (amount + (mn - (lo + amount))))); lia.
  - destruct (Z.ltb_spec (lo + (amount - (cur + amount - mx))) mn); [lia|].
    destruct (Z.ltb_spec mx (cur + (amount - (cur + amount - mx)))); lia.
  - destruct (Z.ltb_spec (lo + amount) mn); [lia|].
    destruct (Z.ltb_spec mx (cur + amount)); lia.
Qed.

Lemma adjust_amount_idempotent_witness :
  adjust_amount (Int 60)
    (<["min" := 50]> (<["max" := 200]> {[ "current" := 140 ]}))
    (<["lower" := 80]> (<["upper" := 120]> {[ "boundary" := 20 ]}))
  = Ok (Int 60).
Proof.
  apply (adjust_amount_idempotent 70 (Int 60)
    (<["min" := 50]> (<["max" := 200]> {[ "current" := 140 ]}))
    (<["lower" := 80]> (<["upper" := 120]> {[ "boundary" := 20 ]}))
    50 140 200 80); try (by vm_compute); lia.
Defined.

(** X10.  After the rounding guard an amount is cut to zero by [int] only
    when it is zero: a fraction of a share is never lost. *)
Theorem rounding_guard_keeps_nonzero (amount : number) :
  Num.int (rounding_guard amount) = 0 ↔ (Num.to_Q amount == 0)%Q.
Proof.
  unfold rounding_guard.
  destruct (Z.eqb_spec (Num.int amount) 0) as [Hz|Hz]; simpl.
  - destruct (Num.ltb amount (Int 0)) eqn:Hneg.
    { apply ltb_lt in Hneg. simpl in Hneg.
      change (inject_Z 0) with 0%Q in Hneg. simpl.
      split; [done|]. intros H. exfalso. lra. }
    destruct (Num.ltb (Int 0) amount) eqn:Hpos.
    { apply ltb_lt in Hpos. simpl in Hpos.
      change (inject_Z 0) with 0%Q in Hpos. simpl.
      split; [done|]. intros H. exfalso. lra. }
    apply ltb_ge in Hneg, Hpos. simpl in Hneg, Hpos.
    change (inject_Z 0) with 0%Q in Hneg, Hpos.
    split; [intros _; lra|done].
  - split; [done|]. intros H. by apply (int_of_integer amount 0) in H.
Qed.

(** * Further properties of the request engine *)

Section MoreRequestFacts.

Variable time_time : nat → Q.
Variable rule_expr : Type.
Variable jsonLogic : rule_expr → scale_counters → bool.
Variable generate_event_name : scale_counters → string → result string.
Variable generate_request_name : number → string → result string.
Variable cpu_shares_per_watt : number.
Variable s : structure.
Variable events : gmap string scale_counters.
Variable limits : gmap string (gmap string Z).
Variable usages : gmap string number.

Abbreviation final_amount :=
  (Guardian.final_amount rule_expr cpu_shares_per_watt s limits usages).
Abbreviation emit_request :=
  (Guardian.emit_request time_time generate_request_name s).
Abbreviation book_events_to_remove :=
  (Guardian.book_events_to_remove rule_expr generate_event_name).
Abbreviation rule_body :=
  (Guardian.rule_body time_time rule_expr jsonLogic generate_event_name
     generate_request_name cpu_shares_per_watt s events limits usages).
Abbreviation match_rule :=
  (Guardian.match_rule time_time rule_expr jsonLogic generate_event_name
     generate_request_name cpu_shares_per_watt s events limits usages).
Abbreviation match_rules_and_events :=
  (Guardian.match_rules_and_events time_time rule_expr jsonLogic
     generate_event_name generate_request_name cpu_shares_per_watt s events
     limits usages).

Abbreviation emitted_by :=
  (emitted_for rule_expr jsonLogic generate_request_name cpu_shares_per_watt
     s events limits usages).

Lemma emit_request_emits st label amount out st' :
  emit_request st label amount = (out, st') →
  generated_requests st' = generated_requests st ∨
  ∃ action, generate_request_name amount label = Ok action ∧
    generated_requests st' = generated_requests st ++
      [emitted_request s label amount action (time_time (clock_tick st))].
Proof.
  unfold Guardian.emit_request, emitted_request.
  destruct (generate_request_name amount label) as [action|e];
    [|intros [= <- <-]; auto].
  destruct (is_container s).
  - destruct (structure_host s), (structure_host_rescaler_ip s),
      (structure_host_rescaler_port s); intros [= <- <-]; simpl; auto.
    right. by exists action.
  - intros [= <- <-]. simpl. right. by exists action.
Qed.

Lemma rule_body_emits st r out st' :
  rule_body st r = (out, st') →
  generated_requests st' = generated_requests st ∨
  ∃ q, emitted_by r q ∧ generated_requests st' = generated_requests st ++ [q].
Proof.
  unfold Guardian.rule_body.
  destruct (rule_fires _ _ _ _) eqn:Hfires; [|intros [= <- <-]; auto].
  destruct (no_current_value _ _) as [[]|]; try (intros [= <- <-]; auto).
  destruct (Guardian.final_amount _ _ _ _ _ r) as [amount|] eqn:Hamount;
    [|intros [= <- <-]; auto].
  destruct (Num.eqb amount (Int 0)) eqn:Hzero; cbn [negb].
  - destruct (events !! rule_resource _ r); [|intros [= <- <-]; auto].
    intros H%book_events_to_remove_requests. by left.
  - destruct (emit_request st (rule_resource _ r) amount)
      as [emitted st1] eqn:Hemit.
    apply emit_request_emits in Hemit.
    assert (generated_requests st' = generated_requests st1 →
      generated_requests st' = generated_requests st ∨
      ∃ q, emitted_by r q ∧
        generated_requests st' = generated_requests st ++ [q]) as Hsame.
    { intros ->. destruct Hemit as [|(action & Haction & ->)]; [by left|].
      right. eexists. split; [|done]. by eexists amount, action, _. }
    destruct emitted; [|intros [= <- <-]; by apply Hsame].
    destruct (events !! rule_resource _ r);
      [|intros [= <- <-]; by apply Hsame].
    intros H%book_events_to_remove_requests. by apply Hsame.
Qed.

Lemma match_rules_emits rules acc st' :
  foldl match_rule acc rules = Ok st' →
  ∃ st, acc = Ok st ∧
    ∃ qs, generated_requests st' = generated_requests st ++ qs ∧
      (length qs ≤ length rules)%nat ∧
      Forall (λ q, ∃ r, r ∈ rules ∧ emitted_by r q) qs.
Proof.
  revert acc. induction rules as [|r rules IH]; intros acc; simpl.
  - intros ->. exists st'. split; [done|]. exists []. rewrite app_nil_r.
    split; [done|]. split; [simpl; lia|constructor].
  - intros (st1 & Hstep & qs & Hqs & Hlen & Hall)%IH.
    unfold Guardian.match_rule in Hstep.
    destruct acc as [st|]; [|done]. simpl in Hstep.
    exists st. split; [done|].
    destruct (rule_body st r) as [out st2] eqn:Hbody.
    apply rule_body_emits in Hbody.
    assert (st2 = st1) as -> by (destruct out as [|[]]; congruence).
    assert (Forall (λ q, ∃ r0, r0 ∈ r :: rules ∧ emitted_by r0 q) qs) as Hall'.
    { eapply Forall_impl; [exact Hall|]. intros q (r0 & Hr0 & Hq).
      exists r0. split; [by apply list_elem_of_further|done]. }
    destruct Hbody as [Hsame|(q & Hq & Hsame)]; rewrite Hsame in Hqs.
    + exists qs. split; [done|]. split; [simpl; lia|done].
    + exists (q :: qs). rewrite <- app_assoc in Hqs.
      split; [done|]. split; [simpl; lia|].
      constructor; [|done]. exists r. split; [apply list_elem_of_here|done].
Qed.

(** Every request of a run was built for one of the rules. *)
Lemma match_rules_and_events_emitted rules tick st' q :
  match_rules_and_events rules tick = Ok st' →
  q ∈ generated_requests st' →
  ∃ r, r ∈ rules ∧ emitted_by r q.
Proof.
  intros (st & [= <-] & qs & Hqs & _ & Hall)%match_rules_emits Hq.
  simpl in Hqs. rewrite Hqs in Hq. rewrite Forall_forall in Hall. by apply Hall.
Qed.

(** The requests of a run, each with the rule that made it, in the order
    of the rules. *)
Lemma match_rules_emitting rules acc st' :
  foldl match_rule acc rules = Ok st' →
  ∃ st, acc = Ok st ∧
    ∃ emitting qs,
      emitting `sublist_of` rules ∧
      generated_requests st' = generated_requests st ++ qs ∧
      Forall2 emitted_by emitting qs.
Proof.
  revert acc. induction rules as [|r rules IH]; intros acc; simpl.
  - intros ->. exists st'. split; [done|]. exists [], [].
    rewrite app_nil_r. split; [done|]. split; [done|constructor].
  - intros (st1 & Hstep & emitting & qs & Hsub & Hqs & Hall)%IH.
    unfold Guardian.match_rule in Hstep.
    destruct acc as [st|]; [|done]. simpl in Hstep.
    exists st. split; [done|].
    destruct (rule_body st r) as [out st2] eqn:Hbody.
    apply rule_body_emits in Hbody.
    assert (st2 = st1) as -> by (destruct out as [|[]]; congruence).
    destruct Hbody as [Hsame|(q & Hq & Hsame)]; rewrite Hsame in Hqs.
    + exists emitting, qs. split; [by apply sublist_cons|done].
    + exists (r :: emitting), (q :: qs). rewrite <- app_assoc in Hqs.
      split; [by apply sublist_skip|]. split; [done|by constructor].
Qed.

Lemma rounding_guard_int z : rounding_guard (Int z) = Int z.
Proof.
  unfold rounding_guard. cbn [Num.int]. rewrite !ltb_int.
  destruct (Z.eqb_spec z 0) as [->|]; done.
Qed.

Lemma fit_reduction_integer current boundary usage amount :
  get_amount_from_fit_reduction current boundary (Int usage) = Ok amount →
  integer amount.
Proof.
  unfold get_amount_from_fit_reduction.
  destruct (Num.truediv boundary 2) as [half|]; [|done].
  cbn [rbind Num.add Num.sub Num.mul]. intros [= <-]. by eexists.
Qed.

Lemma policy_amount_integer r amount :
  (∀ a, rule_amount _ r = Some a → integer a) →
  (∀ metric usage, usages !! metric = Some usage → integer usage) →
  policy_amount rule_expr cpu_shares_per_watt s limits usages r = Ok amount →
  integer amount.
Proof.
  intros Hrule Husages. unfold policy_amount. cbv zeta.
  assert (match rule_amount _ r with
          | Some a => Ok a
          | None => Raise (KeyError "amount")
          end = Ok amount → integer amount) as Hfield.
  { destruct (rule_amount _ r) as [a|]; [|done]. intros [= <-]. by apply Hrule. }
  destruct (String.eqb _ "amount"); [done|].
  destruct (String.eqb _ "fit_to_usage").
  { unfold getitem.
    destruct (structure_resources s !! rule_resource _ r) as [res|]; [|done].
    cbn [rbind]. destruct (res !! "current") as [cur|]; [|done].
    cbn [rbind]. destruct (limits !! rule_resource _ r) as [lim|]; [|done].
    cbn [rbind]. destruct (lim !! "boundary") as [b|]; [|done].
    cbn [rbind].
    destruct (translator_dict !! rule_resource _ r) as [metric|]; [|done].
    cbn [rbind]. destruct (usages !! metric) as [usage|] eqn:Hu; [|done].
    cbn [rbind]. destruct (Husages _ _ Hu) as [u ->].
    apply fit_reduction_integer. }
  destruct (_ && _); [|done].
  unfold get_amount_from_proportional_energy_rescaling, getitem.
  destruct (structure_resources s !! rule_resource _ r) as [res|]; [|done].
  cbn [rbind]. destruct (res !! "max") as [mx|]; [|done].
  cbn [rbind]. destruct (res !! "usage") as [us|]; [|done].
  cbn [rbind]. intros [= <-]. by eexists.
Qed.

Lemma final_amount_integer r amount :
  (∀ a, rule_amount _ r = Some a → integer a) →
  (∀ metric usage, usages !! metric = Some usage → integer usage) →
  final_amount r = Ok amount → integer amount.
Proof.
  intros Hrule Husages. unfold Guardian.final_amount.
  destruct (policy_amount _ _ _ _ _ r) as [amount0|] eqn:Hpolicy; [|done].
  destruct (policy_amount_integer r amount0 Hrule Husages Hpolicy) as [z ->].
  cbn [rbind]. rewrite rounding_guard_int.
  case_bool_decide; [intros [= <-]; by eexists|].
  unfold getitem.
  destruct (structure_resources s !! rule_resource _ r) as [sr|]; [|done].
  destruct (limits !! rule_resource _ r) as [sl|]; [|done]. cbn [rbind].
  unfold adjust_amount, getitem.
  destruct (sr !! "current") as [cur|]; [|done].
  destruct (sl !! "lower") as [lo|]; [|done].
  destruct (sr !! "min") as [mn|]; [|done].
  destruct (sr !! "max") as [mx|]; [|done].
  cbn [rbind Num.add Num.sub].
  destruct (Num.ltb _ _); [intros [= <-]; by eexists|].
  destruct (Num.ltb _ _); intros [= <-]; by eexists.
Qed.

(** X11.  When the amounts of the rules and the usages are integers, no
    request goes out with an amount of zero: the final amount is then an
    integer, which the test against zero and [int] treat alike. *)
Theorem match_rules_and_events_no_zero_request
  (rules : list (rule rule_expr)) (tick : nat) (st' : requests_state) :
  Forall (λ r, ∀ a, rule_amount _ r = Some a → integer a) rules →
  (∀ metric usage, usages !! metric = Some usage → integer usage) →
  match_rules_and_events rules tick = Ok st' →
  Forall (λ q, request_amount q < 0 ∨ 0 < request_amount q)
    (generated_requests st').
Proof.
  intros Hrules Husages Hrun. apply Forall_forall. intros q Hq.
  destruct (match_rules_and_events_emitted _ _ _ _ Hrun Hq)
    as (r & Hr & amount & action & now & _ & Hamount & Hzero & _ & ->).
  rewrite Forall_forall in Hrules.
  destruct (final_amount_integer r amount (Hrules r Hr) Husages Hamount)
    as [z ->].
  simpl. destruct (Z.eq_dec z 0) as [->|Hz]; [|lia].
  by vm_compute in Hzero.
Qed.


(** X13.  A rule gives at most one request, so a run gives at most as many
    requests as it was handed rules. *)
Theorem match_rules_and_events_one_request_per_rule
  (rules : list (rule rule_expr)) (tick : nat) (st' : requests_state) :
  match_rules_and_events rules tick = Ok st' →
  (length (generated_requests st') ≤ length rules)%nat.
Proof.
  intros (st & [= <-] & qs & Hqs & Hlen & _)%match_rules_emits.
  simpl in Hqs. by rewrite Hqs.
Qed.

(** X14.  The requests of a container carry its host, the address and the
    port of its rescaler; those of an application carry none. *)
Theorem match_rules_and_events_host
  (rules : list (rule rule_expr)) (tick : nat) (st' : requests_state) :
  match_rules_and_events rules tick = Ok st' →
  Forall (λ q,
      request_structure q = structure_name s ∧
      request_structure_type q = structure_subtype s ∧
      if is_container s
      then request_host q = structure_host s ∧
           request_host_rescaler_ip q = structure_host_rescaler_ip s ∧
           request_host_rescaler_port q = structure_host_rescaler_port s
      else request_host q = None ∧ request_host_rescaler_ip q = None ∧
           request_host_rescaler_port q = None)
    (generated_requests st').
Proof.
  intros Hrun. apply Forall_forall. intros q Hq.
  destruct (match_rules_and_events_emitted _ _ _ _ Hrun Hq)
    as (r & Hr & amount & action & now & _ & _ & _ & _ & ->).
  simpl. by destruct (is_container s).
Qed.

(** X15.  A rule that is not active, that does not generate requests, or
    whose resource has no reduced events does nothing: a run over such rules
    gives no request, books no removal and reads no clock, whatever else
    the rules hold. *)
Theorem match_rules_and_events_idle_rules
  (rules : list (rule rule_expr)) (tick : nat) :
  Forall (λ r, rule_active _ r = false ∨ rule_generates _ r ≠ "requests" ∨
               events !! rule_resource _ r = None) rules →
  match_rules_and_events rules tick =
  Ok {| generated_requests := []; events_to_remove := ∅; clock_tick := tick |}.
Proof.
  unfold Guardian.match_rules_and_events.
  generalize (MkState [] ∅ tick). intros st0 Hidle.
  induction Hidle as [|r rules Hr Hidle IH]; [done|].
  simpl. unfold Guardian.rule_body, rule_fires.
  destruct Hr as [->|[Hr| ->]].
  - done.
  - apply String.eqb_neq in Hr. rewrite Hr. by rewrite andb_false_r.
  - by rewrite andb_false_r.
Qed.

End MoreRequestFacts.

Lemma match_rules_and_events_no_zero_request_witness :
  Forall (λ r, ∀ a, rule_amount _ r = Some a → integer a)
    [CpuRescaleUp; CpuRescaleDown] ∧
  (∀ metric usage, usage_180 !! metric = Some usage → integer usage) ∧
  sample_match_rules_and_events (container node0_resources) three_up
      node0_limits usage_180 [CpuRescaleUp; CpuRescaleDown] 0 = Ok cpu_up_run ∧
  Forall (λ q, request_amount q < 0 ∨ 0 < request_amount q)
    (generated_requests cpu_up_run).
Proof.
  assert (Forall (λ r, ∀ a, rule_amount _ r = Some a → integer a)
            [CpuRescaleUp; CpuRescaleDown]) as Hrules.
  { apply Forall_cons_2; [intros a [= <-]; by eexists|].
    apply Forall_cons_2; [intros a [= <-]; by eexists|]. apply Forall_nil_2. }
  assert (∀ metric usage, usage_180 !! metric = Some usage → integer usage)
    as Husages.
  { intros metric usage Hu. unfold usage_180 in Hu.
    apply lookup_singleton_Some in Hu as [_ <-]. by eexists. }
  split; [exact Hrules|]. split; [exact Husages|]. split; [by vm_compute|].
  apply (match_rules_and_events_no_zero_request sample_clock sample_rule
    sample_logic sample_event_name sample_request_name (Int 5)
    (container node0_resources) three_up node0_limits usage_180
    [CpuRescaleUp; CpuRescaleDown] 0 cpu_up_run Hrules Husages).
  by vm_compute.
Defined.


Lemma match_rules_and_events_one_request_per_rule_witness :
  sample_match_rules_and_events (container node0_resources) three_up
      node0_limits usage_180 [CpuRescaleUp; CpuRescaleDown] 0 = Ok cpu_up_run ∧
  (length (generated_requests cpu_up_run)
     ≤ length [CpuRescaleUp; CpuRescaleDown])%nat.
Proof.
  split; [by vm_compute|].
  apply (match_rules_and_events_one_request_per_rule sample_clock sample_rule
    sample_logic sample_event_name sample_request_name (Int 5)
    (container node0_resources) three_up node0_limits usage_180
    [CpuRescaleUp; CpuRescaleDown] 0 cpu_up_run).
  by vm_compute.
Defined.

Lemma match_rules_and_events_host_witness :
  sample_match_rules_and_events (container node0_resources) three_up
      node0_limits usage_180 [CpuRescaleUp] 0 = Ok cpu_up_run ∧
  Forall (λ q,
      request_structure q = "node0" ∧
      request_structure_type q = "container" ∧
      if is_container (container node0_resources)
      then request_host q = Some "c14-13" ∧
           request_host_rescaler_ip q = Some "c14-13" ∧
           request_host_rescaler_port q = Some "8000"
      else request_host q = None ∧ request_host_rescaler_ip q = None ∧
           request_host_rescaler_port q = None)
    (generated_requests cpu_up_run).
Proof.
  split; [by vm_compute|].
  apply (match_rules_and_events_host sample_clock sample_rule
    sample_logic sample_event_name sample_request_name (Int 5)
    (container node0_resources) three_up node0_limits usage_180
    [CpuRescaleUp] 0 cpu_up_run).
  by vm_compute.
Defined.

Lemma match_rules_and_events_idle_rules_witness :
  Forall (λ r, rule_active _ r = false ∨ rule_generates _ r ≠ "requests" ∨
               three_up !! rule_resource _ r = None)
    [EnergyRescaleUp; EnergyRescaleUp] ∧
  sample_match_rules_and_events (application capped_resources) three_up
      capped_limits ∅ [EnergyRescaleUp; EnergyRescaleUp] 7
    = Ok {| generated_requests := []; events_to_remove := ∅; clock_tick := 7 |}.
Proof.
  assert (Forall (λ r, rule_active _ r = false ∨
                       rule_generates _ r ≠ "requests" ∨
                       three_up !! rule_resource _ r = None)
            [EnergyRescaleUp; EnergyRescaleUp]) as Hidle.
  { apply Forall_cons_2; [right; right; reflexivity|].
    apply Forall_cons_2; [right; right; reflexivity|]. apply Forall_nil_2. }
  split; [exact Hidle|].
  exact (match_rules_and_events_idle_rules sample_clock sample_rule
    sample_logic sample_event_name sample_request_name (Int 5)
    (application capped_resources) three_up capped_limits ∅
    [EnergyRescaleUp; EnergyRescaleUp] 7 Hidle).
Defined.

(** * The fit-to-usage amount under the repaired limits *)

(** X16.  The aim that the documentation of [get_amount_from_fit_reduction]
    states: once the amount it returns for an integer usage has been applied
    to [current], the repair of [adjust_container_state] sets limits that
    have the usage between them, [upper] half a boundary over the usage and
    [lower] a boundary under [upper], for a boundary that is not negative
    and that a double holds. *)
Theorem get_amount_from_fit_reduction_fits
  (st : container_state) (resource : string) (res lim : gmap string Z)
  (current boundary usage amount : Z) :
  resources st !! resource = Some res →
  limits st !! resource = Some lim →
  lim !! "boundary" = Some boundary →
  0 <= boundary < 2 ^ 53 →
  get_amount_from_fit_reduction current boundary (Int usage)
    = Ok (Int amount) →
  res !! "current" = Some (current + amount) →
  ∃ st' lim',
    repair_limits st resource = (Ok tt, st') ∧
    limits st' !! resource = Some lim' ∧
    lim' !! "upper" = Some (usage + boundary / 2) ∧
    lim' !! "lower" = Some (usage + boundary / 2 - boundary) ∧
    usage + boundary / 2 - boundary <= usage <= usage + boundary / 2.
Proof.
  intros Hres Hlim Hb Hpos Hamount Hcur.
  rewrite fit_reduction_exact in Hamount by lia.
  injection Hamount as Hamount.
  rewrite Z.quot_div_nonneg in Hamount by lia.
  pose proof (Z.div_pos boundary 2 ltac:(lia) ltac:(lia)) as Hhalf.
  assert (boundary / 2 <= boundary) as Hle
    by (apply Z.div_le_upper_bound; lia).
  eexists _, _. split; [|split; [|split; [|split]]].
  - apply repair_limits_ok. by exists lim, boundary, res, (current + amount).
  - simpl. apply lookup_insert_eq.
  - rewrite lookup_insert_ne by done. rewrite lookup_insert_eq. f_equal. lia.
  - rewrite lookup_insert_eq. f_equal. lia.
  - lia.
Qed.

(** The first scenario of the test suite, the request for 60 applied: a
    usage of 180 under a boundary of 20 comes between 170 and 190. *)
Lemma get_amount_from_fit_reduction_fits_witness :
  ∃ st' lim',
    repair_limits
      {| resources :=
           {[ "cpu" := <["min" := 50]> (<["max" := 200]> {[ "current" := 210 ]}) ]};
         limits := node0_limits |} "cpu" = (Ok tt, st') ∧
    limits st' !! "cpu" = Some lim' ∧
    lim' !! "upper" = Some (180 + 20 / 2) ∧
    lim' !! "lower" = Some (180 + 20 / 2 - 20) ∧
    180 + 20 / 2 - 20 <= 180 <= 180 + 20 / 2.
Proof.
  apply (get_amount_from_fit_reduction_fits
    {| resources :=
         {[ "cpu" := <["min" := 50]> (<["max" := 200]> {[ "current" := 210 ]}) ]};
       limits := node0_limits |} "cpu"
    (<["min" := 50]> (<["max" := 200]> {[ "current" := 210 ]}))
    (<["lower" := 80]> (<["upper" := 120]> {[ "boundary" := 20 ]}))
    140 20 180 70); by vm_compute.
Defined.

(** * Further properties of the event engine *)

(** ** What the reduction holds *)

Lemma sum_key_found (key : string) (l : list (string * Z)) v :
  NoDup l.*1 → (key, v) ∈ l →
  foldr (λ kv acc, (if String.eqb kv.1 key then kv.2 else 0) + acc) 0 l = v.
Proof.
  induction l as [|[k w] l IH]; intros Hnd Hin; [by apply elem_of_nil in Hin|].
  apply NoDup_cons in Hnd as [Hk Hnd]. simpl.
  apply elem_of_cons in Hin as [[= <- <-]|Hin].
  - rewrite String.eqb_refl.
    assert (foldr (λ kv acc, (if String.eqb kv.1 key then kv.2 else 0) + acc)
              0 l = 0) as ->; [|lia].
    clear IH Hnd. induction l as [|[k' w'] l IH]; [done|]. simpl.
    simpl in Hk. apply not_elem_of_cons in Hk as [Hne Hk].
    apply String.eqb_neq in Hne. rewrite String.eqb_sym in Hne.
    rewrite Hne, IH by done. done.
  - destruct (String.eqb_spec k key) as [->|Hne].
    + exfalso. apply Hk. apply list_elem_of_fmap. by exists (key, v).
    + rewrite IH by done. lia.
Qed.

Lemma sum_key_missing (key : string) (l : list (string * Z)) :
  key ∉ l.*1 →
  foldr (λ kv acc, (if String.eqb kv.1 key then kv.2 else 0) + acc) 0 l = 0.
Proof.
  induction l as [|[k' w'] l IH]; [done|]. simpl. intros Hk.
  apply not_elem_of_cons in Hk as [Hne Hk].
  apply String.eqb_neq in Hne. rewrite String.eqb_sym in Hne.
  by rewrite Hne, IH.
Qed.

Lemma sum_key_lookup (key : string) (m : gmap string Z) :
  foldr (λ kv acc, (if String.eqb kv.1 key then kv.2 else 0) + acc) 0
    (map_to_list m) = default 0 (m !! key).
Proof.
  destruct (m !! key) as [v|] eqn:Hv; simpl.
  - apply sum_key_found; [apply NoDup_fst_map_to_list|].
    by apply elem_of_map_to_list.
  - apply sum_key_missing. intros ([k w] & -> & Hin)%list_elem_of_fmap.
    apply elem_of_map_to_list in Hin. simpl in Hv. congruence.
Qed.

Lemma event_delta_scale ev :
  event_delta ev = {| down := scale_of "down" ev; up := scale_of "up" ev |}.
Proof.
  unfold event_delta, scale_of. rewrite <- !sum_key_lookup.
  induction (map_to_list (event_scale ev)) as [|[k w] l IH]; [done|].
  cbn [foldr]. rewrite IH. unfold key_delta, counters_plus. simpl.
  destruct (String.eqb_spec k "down") as [->|Hd]; simpl; [done|].
  destruct (String.eqb_spec k "up") as [->|Hu]; simpl; done.
Qed.

Lemma scale_total_cons key resource ev evs :
  scale_total key resource (ev :: evs) =
  (if decide (event_resource ev = resource) then scale_of key ev else 0)
  + scale_total key resource evs.
Proof.
  unfold scale_total. rewrite filter_cons.
  by destruct (decide (event_resource ev = resource)).
Qed.

Lemma resource_total_cons resource ev evs :
  resource_total resource (ev :: evs) =
  counters_plus
    (if decide (event_resource ev = resource) then event_delta ev
     else zero_counters)
    (resource_total resource evs).
Proof.
  unfold resource_total, counters_plus. rewrite !scale_total_cons.
  rewrite event_delta_scale.
  by destruct (decide (event_resource ev = resource)).
Qed.

Lemma resource_total_absent resource evs :
  resource ∉ event_resource <$> evs →
  resource_total resource evs = zero_counters.
Proof.
  induction evs as [|ev evs IH]; [done|].
  rewrite fmap_cons, not_elem_of_cons. intros [Hne Hevs].
  rewrite resource_total_cons, IH by done.
  by rewrite decide_False by done.
Qed.

Lemma reduce_steps_lookup evs m resource :
  foldl reduce_step m evs !! resource =
  if decide (resource ∈ event_resource <$> evs)
  then Some (counters_plus (default zero_counters (m !! resource))
               (resource_total resource evs))
  else m !! resource.
Proof.
  revert m. induction evs as [|ev evs IH]; intros m.
  - rewrite decide_False; [done|]. apply not_elem_of_nil.
  - cbn [foldl]. rewrite IH, resource_total_cons, fmap_cons.
    unfold reduce_step.
    destruct (decide (event_resource ev = resource)) as [Heq|Hne].
    + rewrite Heq, lookup_insert_eq. cbn [default]. unfold id.
      rewrite (decide_True (P := resource ∈ resource :: _))
        by apply list_elem_of_here.
      destruct (decide (resource ∈ event_resource <$> evs)) as [Hin|Hout].
      * by rewrite counters_plus_assoc.
      * by rewrite (resource_total_absent _ _ Hout), counters_plus_zero_r.
    + rewrite lookup_insert_ne by done. rewrite counters_plus_zero_l.
      destruct (decide (resource ∈ event_resource <$> evs)) as [Hin|Hout].
      * rewrite decide_True; [done|]. by apply list_elem_of_further.
      * rewrite decide_False; [done|].
        rewrite not_elem_of_cons. split; [done|done].
Qed.

Lemma scale_total_permutation key resource A B :
  A ≡ₚ B → scale_total key resource A = scale_total key resource B.
Proof.
  induction 1 as [|ev A B _ IH|ev1 ev2 A|A B C _ IH1 _ IH2].
  - done.
  - by rewrite !scale_total_cons, IH.
  - rewrite !scale_total_cons. lia.
  - by rewrite IH1.
Qed.

(** X17.  What the reduction holds: a resource is in it exactly when one of
    the events is on that resource, and its two counters are the sums of
    the [down] and of the [up] counters of the events on it, an event
    without one of them counting for zero. *)
Theorem reduce_structure_events_totals (structure_events : list event) :
  Forall up_down_event structure_events →
  ∃ events_reduced,
    reduce_structure_events structure_events = Ok events_reduced ∧
    ∀ resource,
      events_reduced !! resource =
      if decide (resource ∈ event_resource <$> structure_events)
      then Some {| down := scale_total "down" resource structure_events;
                   up := scale_total "up" resource structure_events |}
      else None.
Proof.
  intros Hevs. exists (foldl reduce_step ∅ structure_events).
  split; [by apply reduce_events_steps|].
  intros resource. rewrite reduce_steps_lookup, lookup_empty.
  by rewrite counters_plus_zero_l.
Qed.

(** X18.  The reduction does not depend on the order of the events. *)
Theorem reduce_structure_events_permutation (A B : list event) :
  Forall up_down_event A → A ≡ₚ B →
  reduce_structure_events A = reduce_structure_events B.
Proof.
  intros HA Hperm.
  assert (Forall up_down_event B) as HB by (by rewrite <- Hperm).
  unfold reduce_structure_events. rewrite !reduce_events_steps by done.
  f_equal. apply map_eq. intros resource. rewrite !reduce_steps_lookup.
  unfold resource_total.
  rewrite !(scale_total_permutation _ resource A B Hperm).
  destruct (decide (resource ∈ event_resource <$> A)) as [Hin|Hout];
    rewrite Hperm in *.
  - by rewrite decide_True.
  - by rewrite decide_False.
Qed.

Lemma reduce_keys_raise resource e l :
  foldl (reduce_key resource) (Raise e) l = Raise e.
Proof. induction l as [|kv l IH]; [done|]. simpl. apply IH. Qed.

Lemma reduce_events_raise e evs :
  foldl (λ acc ev, (events_reduced <- acc ;; reduce_event events_reduced ev))
    (Raise e) evs = Raise e.
Proof. induction evs as [|ev evs IH]; [done|]. simpl. apply IH. Qed.

Lemma reduce_keys_cases resource l m c :
  m !! resource = Some c →
  Forall (λ kv, kv.1 = "up" ∨ kv.1 = "down") l ∨
  ∃ kv, kv ∈ l ∧ kv.1 ≠ "up" ∧ kv.1 ≠ "down" ∧
    foldl (reduce_key resource) (Ok m) l = Raise (KeyError kv.1).
Proof.
  revert m c. induction l as [|[key value] l IH]; intros m c Hc.
  - left. constructor.
  - cbn [foldl].
    destruct (String.eqb_spec key "down") as [Hd|Hd];
      [|destruct (String.eqb_spec key "up") as [Hu|Hu]].
    3: { right. exists (key, value). split; [apply list_elem_of_here|].
         split; [done|]. split; [done|].
         assert (reduce_key resource (Ok m) (key, value) = Raise (KeyError key))
           as ->; [|apply reduce_keys_raise].
         unfold reduce_key, getitem, counters_add_key. simpl. rewrite Hc. simpl.
         apply String.eqb_neq in Hd, Hu. by rewrite Hd, Hu. }
    all: assert (reduce_key resource (Ok m) (key, value)
            = Ok (<[resource := counters_plus c (key_delta (key, value))]> m))
      as -> by (unfold reduce_key, getitem; simpl; rewrite Hc; simpl;
                rewrite (counters_add_key_delta c key value) by auto; done).
    all: destruct (IH _ _ (lookup_insert_eq m resource
                    (counters_plus c (key_delta (key, value)))))
      as [Hall|(kv & Hin & Hu' & Hd' & Hraise)];
      [left; constructor; [simpl; auto|done]
      |right; exists kv; split; [by apply list_elem_of_further|done]].
Qed.

Lemma reduce_event_cases m ev :
  up_down_event ev ∨
  ∃ key, is_Some (event_scale ev !! key) ∧ key ≠ "up" ∧ key ≠ "down" ∧
    reduce_event m ev = Raise (KeyError key).
Proof.
  unfold reduce_event.
  set (m1 := match m !! event_resource ev with
             | Some _ => m
             | None => <[event_resource ev := zero_counters]> m
             end).
  assert (∃ c, m1 !! event_resource ev = Some c) as [c Hc].
  { unfold m1. destruct (m !! event_resource ev) as [c|] eqn:Hm; [by exists c|].
    exists zero_counters. apply lookup_insert_eq. }
  destruct (reduce_keys_cases (event_resource ev)
              (map_to_list (event_scale ev)) m1 c Hc)
    as [Hall|([key value] & Hin & Hu & Hd & Hraise)].
  - left. intros key [value Hkey].
    rewrite Forall_forall in Hall.
    apply (Hall (key, value)). by apply elem_of_map_to_list.
  - right. exists key. split; [|done].
    exists value. by apply elem_of_map_to_list.
Qed.

Lemma reduce_events_cases evs m :
  Forall up_down_event evs ∨
  ∃ ev key, ev ∈ evs ∧ is_Some (event_scale ev !! key) ∧
    key ≠ "up" ∧ key ≠ "down" ∧
    foldl (λ acc ev, (events_reduced <- acc ;; reduce_event events_reduced ev))
      (Ok m) evs = Raise (KeyError key).
Proof.
  revert m. induction evs as [|ev evs IH]; intros m; [left; constructor|].
  cbn [foldl rbind].
  destruct (reduce_event_cases m ev) as [Hev|(key & Hkey & Hu & Hd & Hraise)].
  - rewrite (reduce_event_step _ _ Hev).
    destruct (IH (reduce_step m ev))
      as [Hall|(ev' & key & Hin & Hkey & Hu & Hd & Hraise)].
    + left. by constructor.
    + right. exists ev', key. split; [by apply list_elem_of_further|done].
  - right. exists ev, key. split; [apply list_elem_of_here|].
    rewrite Hraise. by rewrite reduce_events_raise.
Qed.

(** X19.  The reduction goes through exactly when every counter of every
    event is keyed by [up] or by [down]; otherwise it raises the [KeyError]
    of a counter keyed otherwise, and never another exception. *)
Theorem reduce_structure_events_raises (structure_events : list event) :
  ((∃ events_reduced,
      reduce_structure_events structure_events = Ok events_reduced)
   ↔ Forall up_down_event structure_events) ∧
  ∀ e, reduce_structure_events structure_events = Raise e →
    ∃ ev key, ev ∈ structure_events ∧ is_Some (event_scale ev !! key) ∧
      key ≠ "up" ∧ key ≠ "down" ∧ e = KeyError key.
Proof.
  unfold reduce_structure_events.
  destruct (reduce_events_cases structure_events ∅)
    as [Hall|(ev & key & Hin & Hkey & Hu & Hd & Hraise)].
  - rewrite (reduce_events_steps _ _ Hall). split; [|done].
    split; [done|]. intros _. by eexists.
  - rewrite Hraise. split.
    + split; [by intros [? ?]|]. intros Hall. exfalso.
      rewrite Forall_forall in Hall. destruct Hkey as [value Hvalue].
      destruct (Hall ev Hin key) as [->| ->]; by eauto.
    + intros e [= <-]. by exists ev, key.
Qed.

(** ** Aging *)

Lemma with_readings_events tick evs : (with_readings tick evs).*2 = evs.
Proof. unfold with_readings. apply snd_zip. by rewrite length_seq. Qed.

(** X20.  [sort_events] loses no event, makes none twice and keeps the
    order: the valid and the stale events are two sublists of the events
    given, together a rearrangement of them, and the clock has been read
    once for each event. *)
Theorem sort_events_partition (time_time : nat → Q)
  (structure_events : list event) (event_timeout : Z) (tick : nat) :
  let '(valid, invalid, tick') :=
    sort_events time_time structure_events event_timeout tick in
  valid ++ invalid ≡ₚ structure_events ∧
  valid `sublist_of` structure_events ∧
  invalid `sublist_of` structure_events ∧
  tick' = (tick + length structure_events)%nat.
Proof.
  unfold sort_events. rewrite sort_events_from. cbn [app].
  split; [|split; [|split]].
  - rewrite <- fmap_app.
    rewrite <- (with_readings_events tick structure_events) at 3.
    apply fmap_Permutation. rewrite Permutation_app_comm.
    apply filter_app_complement.
  - rewrite <- (with_readings_events tick structure_events) at 2.
    apply fmap_sublist, sublist_filter.
  - rewrite <- (with_readings_events tick structure_events) at 2.
    apply fmap_sublist, sublist_filter.
  - done.
Qed.

Lemma sort_events_all_stale (time_time : nat → Q) event_timeout evs
  valid invalid tick :
  Forall (λ ev, ∀ k, (tick ≤ k)%nat → stale (time_time k) event_timeout ev)
    evs →
  foldl (sort_event time_time event_timeout) (valid, invalid, tick) evs =
  (valid, invalid ++ evs, (tick + length evs)%nat).
Proof.
  revert invalid tick. induction evs as [|ev evs IH]; intros invalid tick Hall.
  - simpl. rewrite app_nil_r. do 2 f_equal. lia.
  - apply Forall_cons in Hall as [Hev Hall]. cbn [foldl].
    rewrite sort_event_stale, decide_True by (apply Hev; lia).
    rewrite IH.
    + rewrite <- app_assoc. simpl. do 2 f_equal. lia.
    + eapply Forall_impl; [exact Hall|]. intros ev' H k Hk. apply H. lia.
Qed.

(** X21.  Under a clock that never goes back, an event that a call has
    found stale is found stale by every later call with the same timeout:
    sorting the stale events again keeps none of them. *)
Theorem sort_events_stale_again (time_time : nat → Q)
  (structure_events : list event) (event_timeout : Z) (tick later : nat) :
  (∀ i j, (i ≤ j)%nat → (time_time i <= time_time j)%Q) →
  (tick + length structure_events ≤ later)%nat →
  let invalid :=
    (sort_events time_time structure_events event_timeout tick).1.2 in
  sort_events time_time invalid event_timeout later =
  ([], invalid, (later + length invalid)%nat).
Proof.
  intros Hclock Hlater invalid. unfold sort_events at 1.
  apply (sort_events_all_stale time_time event_timeout invalid [] [] later).
  unfold invalid, sort_events. rewrite sort_events_from. cbn [app fst snd].
  apply Forall_forall. intros ev Hev.
  apply list_elem_of_fmap in Hev as ([i ev'] & -> & Hin).
  apply list_elem_of_filter in Hin as [Hstale Hin]. simpl in Hstale. simpl.
  unfold with_readings in Hin. apply elem_of_zip_l in Hin.
  apply elem_of_seq in Hin.
  intros k Hk. unfold stale in *.
  pose proof (Hclock i k ltac:(lia)). lra.
Qed.

(** * Further properties of the store facade *)

(** ** Updates *)

Lemma resilient_update_doc_cons r answers doc tries backoff :
  resilient_update_doc (r :: answers) doc tries backoff =
  posted <$>
    match r with
    | Status200 => Some (MkUpdateEnd (Ok (Some true)) doc [] 0)
    | Status409 stored_rev =>
      if (0 <=? tries) && (tries <? MAX_UPDATE_TRIES) then
        resilient_update_doc answers (with_rev doc stored_rev) (tries + 1) 2
      else Some (MkUpdateEnd (raise_for_status 409) doc [] 0)
    | Status404 =>
      slept backoff <$> resilient_update_doc answers doc (tries + 1) 2
    | StatusOther code => Some (MkUpdateEnd (raise_for_status code) doc [] 0)
    end.
Proof. done. Qed.

Lemma raise_for_status_not_true code : raise_for_status code ≠ Ok (Some true).
Proof. unfold raise_for_status. by destruct (_ && _). Qed.

(** What a run that ends has done, for a call with the default pause. *)
Lemma resilient_update_doc_run answers doc tries e :
  0 <= tries →
  resilient_update_doc answers doc tries 2 = Some e →
  (1 ≤ posts e ≤ length answers)%nat ∧
  (∀ i, (S i < posts e)%nat →
     answers !! i = Some Status404 ∨
     (tries + Z.of_nat i < MAX_UPDATE_TRIES ∧
      ∃ rev, answers !! i = Some (Status409 rev))) ∧
  (returned e = Ok (Some true) ↔
     answers !! (posts e - 1)%nat = Some Status200) ∧
  sleeps e =
    replicate (length (filter (λ r, r = Status404) (take (posts e) answers))) 2 ∧
  doc_id (doc_after e) = doc_id doc ∧
  doc_fields (doc_after e) = doc_fields doc ∧
  (doc_rev (doc_after e) = doc_rev doc ∨
   Status409 (doc_rev (doc_after e)) ∈ take (posts e - 1) answers).
Proof.
  revert doc tries e.
  induction answers as [|r answers IH]; intros doc tries e Htries; [done|].
  rewrite resilient_update_doc_cons.
  destruct r as [|rev| |code].
  - simpl. intros [= <-]. simpl. repeat split; try done; try lia;
      try (by left); try (intros H; by apply raise_for_status_not_true in H).
  - destruct ((0 <=? tries) && (tries <? MAX_UPDATE_TRIES)) eqn:Hcap.
    + apply andb_true_iff in Hcap as [_ Hcap%Z.ltb_lt].
      destruct (resilient_update_doc answers _ (tries + 1) 2) as [e0|] eqn:Hrun;
        [|done].
      simpl. intros [= <-].
      destruct (IH _ (tries + 1) _ ltac:(lia) Hrun)
        as ([Hp1 Hp2] & Hretried & Hret & Hsleeps & Hid & Hfields & Hrev).
      simpl. split; [lia|]. split; [|split; [|split; [|split; [|split]]]].
      * intros [|i] Hi; [right; split; [lia|by exists rev]|].
        destruct (Hretried i ltac:(lia)) as [?|[? ?]]; [by left|].
        right. split; [lia|done].
      * rewrite Hret. rewrite Nat.sub_0_r.
        destruct (posts e0) as [|p]; [lia|]. simpl. by rewrite Nat.sub_0_r.
      * rewrite Hsleeps. by rewrite filter_cons_False.
      * done.
      * done.
      * rewrite Nat.sub_0_r. destruct (posts e0) as [|p]; [lia|].
        simpl in Hrev. rewrite Nat.sub_0_r in Hrev. simpl.
        destruct Hrev as [Hrev|Hrev].
        -- right. rewrite Hrev. apply list_elem_of_here.
        -- right. by apply list_elem_of_further.
    + simpl. intros [= <-]. simpl. repeat split; try done; try lia;
      try (by left); try (intros H; by apply raise_for_status_not_true in H).
  - destruct (resilient_update_doc answers doc (tries + 1) 2) as [e0|] eqn:Hrun;
      [|done].
    simpl. intros [= <-].
    destruct (IH _ (tries + 1) _ ltac:(lia) Hrun)
      as ([Hp1 Hp2] & Hretried & Hret & Hsleeps & Hid & Hfields & Hrev).
    simpl. split; [lia|]. split; [|split; [|split; [|split; [|split]]]].
    + intros [|i] Hi; [by left|].
      destruct (Hretried i ltac:(lia)) as [?|[? ?]]; [by left|].
      right. split; [lia|done].
    + rewrite Hret. rewrite Nat.sub_0_r.
      destruct (posts e0) as [|p]; [lia|]. simpl. by rewrite Nat.sub_0_r.
    + rewrite Hsleeps. rewrite ?filter_cons_True by done. done.
    + done.
    + done.
    + rewrite Nat.sub_0_r. destruct (posts e0) as [|p]; [lia|].
      simpl in Hrev. rewrite Nat.sub_0_r in Hrev. simpl.
      destruct Hrev as [Hrev|Hrev]; [by left|].
      right. by apply list_elem_of_further.
  - simpl. intros [= <-]. simpl. repeat split; try done; try lia;
      try (by left); try (intros H; by apply raise_for_status_not_true in H).
Qed.

Lemma resilient_update_doc_ends answers doc tries backoff :
  0 <= tries →
  (Z.to_nat (Z.max 1 (MAX_UPDATE_TRIES + 1 - tries))
     ≤ length (filter (λ r, r ≠ Status404) answers))%nat →
  is_Some (resilient_update_doc answers doc tries backoff).
Proof.
  unfold MAX_UPDATE_TRIES.
  revert doc tries backoff.
  induction answers as [|r answers IH]; intros doc tries backoff Htries Hlen.
  { simpl in Hlen. lia. }
  rewrite resilient_update_doc_cons. apply fmap_is_Some.
  destruct r as [|rev| |code]; [done| | |done].
  - destruct ((0 <=? tries) && (tries <? MAX_UPDATE_TRIES)) eqn:Hcap; [|done].
    apply andb_true_iff in Hcap as [_ Hcap%Z.ltb_lt].
    unfold MAX_UPDATE_TRIES in Hcap.
    apply IH; [lia|]. rewrite filter_cons_True in Hlen by done.
    simpl in Hlen. lia.
  - apply fmap_is_Some. apply IH; [lia|].
    rewrite filter_cons_False in Hlen by (intros H; by apply H). lia.
Qed.

(** X22.  Whatever the store answers, an update leaves the [_id] and the
    fields of the caller's document as they were; its [_rev] is the one it
    came with, or one that the store gave with a conflict. *)
Theorem update_doc_keeps_document
  (answers : list response) (doc : document) (e : update_end) :
  update_doc answers doc = Some e →
  doc_id (doc_after e) = doc_id doc ∧
  doc_fields (doc_after e) = doc_fields doc ∧
  (doc_rev (doc_after e) = doc_rev doc ∨
   Status409 (doc_rev (doc_after e)) ∈ answers).
Proof.
  intros Hrun.
  destruct (resilient_update_doc_run answers doc 0 e ltac:(lia) Hrun)
    as (_ & _ & _ & _ & Hid & Hfields & Hrev).
  split; [done|]. split; [done|].
  destruct Hrev as [Hrev|Hrev]; [by left|right].
  by apply (subseteq_take (posts e - 1) answers).
Qed.

(** X23.  A request is followed by another one only when the store has
    answered 404, or has answered 409 to one of the first five requests:
    every answer of a run but the last is one of these. *)
Theorem update_doc_retries
  (answers : list response) (doc : document) (e : update_end) :
  update_doc answers doc = Some e →
  (1 ≤ posts e ≤ length answers)%nat ∧
  ∀ i, (S i < posts e)%nat →
    answers !! i = Some Status404 ∨
    ((i < 5)%nat ∧ ∃ rev, answers !! i = Some (Status409 rev)).
Proof.
  intros Hrun.
  destruct (resilient_update_doc_run answers doc 0 e ltac:(lia) Hrun)
    as (Hposts & Hretried & _).
  split; [done|]. intros i Hi.
  destruct (Hretried i Hi) as [H404|[Hcap H409]]; [by left|right].
  unfold MAX_UPDATE_TRIES in Hcap. split; [lia|done].
Qed.

(** X24.  An update returns [True] exactly when the answer to its last
    request is 200, and it has paused two seconds once for every 404 among
    the answers it has read. *)
Theorem update_doc_outcome
  (answers : list response) (doc : document) (e : update_end) :
  update_doc answers doc = Some e →
  (returned e = Ok (Some true) ↔
     answers !! (posts e - 1)%nat = Some Status200) ∧
  sleeps e =
    replicate
      (length (filter (λ r, r = Status404) (take (posts e) answers))) 2.
Proof.
  intros Hrun.
  destruct (resilient_update_doc_run answers doc 0 e ltac:(lia) Hrun)
    as (_ & _ & Hret & Hsleeps & _).
  done.
Qed.

(** X25.  An update ends at the sixth answer other than 404 at the latest:
    against a store that gives six such answers, whatever it puts between
    them, the call returns or raises. *)
Theorem update_doc_ends (answers : list response) (doc : document) :
  (6 ≤ length (filter (λ r, r ≠ Status404) answers))%nat →
  ∃ e, update_doc answers doc = Some e ∧ (posts e ≤ length answers)%nat.
Proof.
  intros Hlen.
  destruct (resilient_update_doc_ends answers doc 0 2 ltac:(lia))
    as [e Hrun]; [unfold MAX_UPDATE_TRIES; simpl; lia|].
  exists e. split; [done|].
  by destruct (resilient_update_doc_run answers doc 0 e ltac:(lia) Hrun)
    as ([_ ?] & _).
Qed.

(** ** Deletion of events *)

Lemma delete_events_raised status s event_name event_num acc e evs :
  delete_ended acc = Raise e →
  foldl (delete_event_step status s event_name event_num) acc evs = acc.
Proof.
  intros He. induction evs as [|ev evs IH]; [done|].
  simpl. unfold delete_event_step at 2. by rewrite He.
Qed.

Lemma delete_doc_raise code e :
  delete_doc code = Raise e → e = HTTPError code ∧ 400 <= code < 600.
Proof.
  unfold delete_doc, raise_for_status.
  destruct (code =? 200); [done|].
  destruct ((400 <=? code) && (code <? 600)) eqn:Hcode; [|done].
  intros [= <-]. apply andb_true_iff in Hcode as [?%Z.leb_le ?%Z.ltb_lt].
  done.
Qed.

Lemma delete_event_step_ok status s event_name event_num acc ev :
  delete_ended acc = Ok tt →
  delete_event_step status s event_name event_num acc ev =
  if decide (event_of s event_name ev) then
    if decide (num_deleted acc < event_num) then
      match delete_doc (status (length (deletes_sent acc))) with
      | Raise e => {| delete_ended := Raise e;
                      num_deleted := num_deleted acc;
                      deletes_sent := deletes_sent acc ++ [delete_target ev] |}
      | Ok _ => {| delete_ended := Ok tt;
                   num_deleted := num_deleted acc + 1;
                   deletes_sent := deletes_sent acc ++ [delete_target ev] |}
      end
    else acc
  else acc.
Proof.
  intros Hacc. unfold delete_event_step, event_of. rewrite Hacc.
  destruct (String.eqb_spec (event_doc_structure ev) (structure_name s));
    cbn [andb]; [|by rewrite decide_False by (by intros [? ?])].
  destruct (String.eqb_spec (event_doc_name ev) event_name);
    cbn [andb]; [|by rewrite decide_False by (by intros [? ?])].
  rewrite decide_True by done.
  destruct (Z.ltb_spec (num_deleted acc) event_num).
  - by rewrite decide_True.
  - rewrite decide_False; [done|lia].
Qed.

Lemma delete_events_run status s event_name event_num evs acc :
  delete_ended acc = Ok tt →
  let budget := Z.to_nat (event_num - num_deleted acc) in
  let targets :=
    take budget (delete_target <$> filter (event_of s event_name) evs) in
  let r := foldl (delete_event_step status s event_name event_num) acc evs in
  (∃ sent, deletes_sent r = deletes_sent acc ++ sent ∧
           sent `prefix_of` targets ∧
           num_deleted r - num_deleted acc
             = Z.of_nat (length sent)
               - match delete_ended r with Ok _ => 0 | Raise _ => 1 end) ∧
  (delete_ended r = Ok tt → deletes_sent r = deletes_sent acc ++ targets) ∧
  (∀ e, delete_ended r = Raise e →
     ∃ k, length (deletes_sent r) = S k ∧ e = HTTPError (status k) ∧
          400 <= status k < 600).
Proof.
  cbv zeta. revert acc. induction evs as [|ev evs IH]; intros acc Hacc.
  - simpl. rewrite take_nil. split; [|split].
    + exists []. rewrite app_nil_r, Hacc. split; [done|]. split; [done|simpl; lia].
    + by rewrite app_nil_r.
    + intros e. by rewrite Hacc.
  - cbn [foldl]. rewrite (delete_event_step_ok _ _ _ _ _ _ Hacc).
    destruct (decide (event_of s event_name ev)) as [Hev|Hev].
    2: { rewrite filter_cons_False by done. by apply IH. }
    rewrite filter_cons_True by done. rewrite fmap_cons.
    destruct (decide (num_deleted acc < event_num)) as [Hlt|Hge].
    2: { specialize (IH acc Hacc).
         replace (Z.to_nat (event_num - num_deleted acc)) with 0%nat in *
           by lia.
         by rewrite !take_0 in *. }
    replace (Z.to_nat (event_num - num_deleted acc))
      with (S (Z.to_nat (event_num - (num_deleted acc + 1)))) by lia.
    rewrite firstn_cons.
    destruct (delete_doc (status (length (deletes_sent acc)))) as [ok|e] eqn:Hd.
    + set (acc1 := {| delete_ended := Ok tt;
                      num_deleted := num_deleted acc + 1;
                      deletes_sent := deletes_sent acc ++ [delete_target ev] |}).
      destruct (IH acc1 eq_refl) as ((sent & Hsent & Hpre & Hnum) & Hok & Hraise).
      simpl in Hsent, Hpre, Hnum, Hok.
      split; [|split].
      * exists (delete_target ev :: sent). rewrite Hsent, <- app_assoc.
        split; [done|]. split; [by apply prefix_cons|].
        simpl length. lia.
      * intros Hend. rewrite (Hok Hend), <- app_assoc. done.
      * done.
    + set (acc1 := {| delete_ended := Raise e;
                      num_deleted := num_deleted acc;
                      deletes_sent := deletes_sent acc ++ [delete_target ev] |}).
      rewrite (delete_events_raised _ _ _ _ acc1 e) by done.
      simpl. apply delete_doc_raise in Hd as [-> Hcode].
      split; [|split].
      * exists [delete_target ev]. split; [done|].
        split; [apply prefix_cons, prefix_nil|simpl; lia].
      * done.
      * intros e [= <-]. exists (length (deletes_sent acc)).
        rewrite length_app. simpl. split; [lia|done].
Qed.

(** X26.  [delete_num_events_by_structure] sends its [DELETE]s, in the
    order of the documents, to the first [event_num] events of the
    structure under the name and to no other document: to all of them when
    it returns, and up to the one whose [DELETE] the store has answered
    with an error status, which it raises, when it does not. *)
Theorem delete_num_events_by_structure_targets (status : nat → Z)
  (events : list event_document) (s : structure) (event_name : string)
  (event_num : Z) :
  let targets :=
    take (Z.to_nat event_num)
      (delete_target <$> filter (event_of s event_name) events) in
  let r :=
    delete_num_events_by_structure status events s event_name event_num in
  deletes_sent r `prefix_of` targets ∧
  (delete_ended r = Ok tt → deletes_sent r = targets) ∧
  (∀ e, delete_ended r = Raise e →
     ∃ k, length (deletes_sent r) = S k ∧ e = HTTPError (status k) ∧
          400 <= status k < 600).
Proof.
  cbv zeta. unfold delete_num_events_by_structure.
  destruct (delete_events_run status s event_name event_num events
              {| delete_ended := Ok tt; num_deleted := 0; deletes_sent := [] |}
              eq_refl) as ((sent & Hsent & Hpre & _) & Hok & Hraise).
  cbv zeta in *. simpl in Hsent, Hpre, Hok.
  rewrite Z.sub_0_r in Hpre, Hok.
  split; [by rewrite Hsent|]. split; done.
Qed.

(** X27.  Against a store that answers no [DELETE] with an error status,
    the call returns having deleted the first [event_num] events of the
    structure under the name, or all of them when they are fewer, and
    [num_deleted] counts them. *)
Theorem delete_num_events_by_structure_accepted (status : nat → Z)
  (events : list event_document) (s : structure) (event_name : string)
  (event_num : Z) :
  (∀ k, status k < 400 ∨ 600 <= status k) →
  let r :=
    delete_num_events_by_structure status events s event_name event_num in
  delete_ended r = Ok tt ∧
  deletes_sent r =
    take (Z.to_nat event_num)
      (delete_target <$> filter (event_of s event_name) events) ∧
  num_deleted r = Z.of_nat (length (deletes_sent r)) ∧
  num_deleted r <= Z.max 0 event_num.
Proof.
  intros Hstatus. cbv zeta. unfold delete_num_events_by_structure.
  destruct (delete_events_run status s event_name event_num events
              {| delete_ended := Ok tt; num_deleted := 0; deletes_sent := [] |}
              eq_refl) as ((sent & Hsent & Hpre & Hnum) & Hok & Hraise).
  cbv zeta in *. simpl in Hsent, Hpre, Hok, Hnum.
  rewrite Z.sub_0_r in Hpre, Hok, Hnum.
  destruct (delete_ended (foldl _ _ events)) as [[]|e] eqn:Hend.
  2: { destruct (Hraise e eq_refl) as (k & _ & _ & Hk).
       destruct (Hstatus k); lia. }
  split; [done|]. split; [by apply Hok|].
  rewrite Hsent. split; [lia|].
  rewrite Hnum, Z.sub_0_r. apply prefix_length in Hpre.
  rewrite length_take in Hpre. lia.
Qed.

(** Of the three bottlenecks of [node0], two are asked for and the store
    refuses the second [DELETE]: the call raises with the third event
    untouched. *)
Example delete_num_events_by_structure_refused :
  delete_num_events_by_structure refusing_store stored_events
    (container node0_resources) "cpuBottleneck" 2
  = {| delete_ended := Raise (HTTPError 409);
       num_deleted := 1;
       deletes_sent := [("e1", "1-a"); ("e3", "1-c")] |}.
Proof. by vm_compute. Qed.

(** * The further properties at work *)

Lemma reduce_structure_events_totals_witness :
  ∃ events_reduced,
    reduce_structure_events
      [up_event "cpu" 1; down_event "mem" 1; up_event "cpu" 2]
      = Ok events_reduced ∧
    ∀ resource,
      events_reduced !! resource =
      if decide (resource ∈ event_resource <$>
                   [up_event "cpu" 1; down_event "mem" 1; up_event "cpu" 2])
      then Some {| down := scale_total "down" resource
                     [up_event "cpu" 1; down_event "mem" 1; up_event "cpu" 2];
                   up := scale_total "up" resource
                     [up_event "cpu" 1; down_event "mem" 1; up_event "cpu" 2] |}
      else None.
Proof.
  apply (reduce_structure_events_totals
           [up_event "cpu" 1; down_event "mem" 1; up_event "cpu" 2]);
    repeat apply Forall_cons_2; try apply Forall_nil_2;
    first [apply up_event_up_down | apply down_event_up_down].
Defined.

Lemma reduce_structure_events_permutation_witness :
  reduce_structure_events [up_event "cpu" 1; down_event "mem" 1]
  = reduce_structure_events [down_event "mem" 1; up_event "cpu" 1].
Proof.
  apply (reduce_structure_events_permutation
           [up_event "cpu" 1; down_event "mem" 1]
           [down_event "mem" 1; up_event "cpu" 1]).
  - repeat apply Forall_cons_2; try apply Forall_nil_2;
      first [apply up_event_up_down | apply down_event_up_down].
  - apply perm_swap.
Defined.

(** The two events that the passing clock tells apart: the one found stale
    at the second reading is found stale again at the third. *)
Lemma sort_events_stale_again_witness :
  (∀ i j, (i ≤ j)%nat → (passing_clock i <= passing_clock j)%Q) ∧
  (0 + length [up_event "cpu" 1; up_event "cpu" 1] ≤ 2)%nat ∧
  sort_events passing_clock [up_event "cpu" 1] 40 2
    = ([], [up_event "cpu" 1], 3%nat).
Proof.
  assert (∀ i j, (i ≤ j)%nat → (passing_clock i <= passing_clock j)%Q)
    as Hclock.
  { intros [|i] [|j] Hij; try lia; unfold Qle; simpl; lia. }
  split; [exact Hclock|]. split; [simpl; lia|].
  apply (sort_events_stale_again passing_clock
           [up_event "cpu" 1; up_event "cpu" 1] 40 0 2 Hclock).
  simpl. lia.
Defined.

Lemma update_doc_keeps_document_witness :
  update_doc conflict_then_missing limits_document
    = Some conflict_then_missing_end ∧
  doc_id (doc_after conflict_then_missing_end) = doc_id limits_document ∧
  doc_fields (doc_after conflict_then_missing_end)
    = doc_fields limits_document ∧
  (doc_rev (doc_after conflict_then_missing_end) = doc_rev limits_document ∨
   Status409 (doc_rev (doc_after conflict_then_missing_end))
     ∈ conflict_then_missing).
Proof.
  split; [by vm_compute|].
  apply (update_doc_keeps_document conflict_then_missing limits_document
           conflict_then_missing_end).
  by vm_compute.
Defined.

Lemma update_doc_retries_witness :
  update_doc conflict_then_missing limits_document
    = Some conflict_then_missing_end ∧
  (1 ≤ posts conflict_then_missing_end ≤ length conflict_then_missing)%nat ∧
  ∀ i, (S i < posts conflict_then_missing_end)%nat →
    conflict_then_missing !! i = Some Status404 ∨
    ((i < 5)%nat ∧ ∃ rev, conflict_then_missing !! i = Some (Status409 rev)).
Proof.
  split; [by vm_compute|].
  apply (update_doc_retries conflict_then_missing limits_document
           conflict_then_missing_end).
  by vm_compute.
Defined.

Lemma update_doc_outcome_witness :
  update_doc conflict_then_missing limits_document
    = Some conflict_then_missing_end ∧
  (returned conflict_then_missing_end = Ok (Some true) ↔
     conflict_then_missing !! (posts conflict_then_missing_end - 1)%nat
       = Some Status200) ∧
  sleeps conflict_then_missing_end =
    replicate
      (length (filter (λ r, r = Status404)
                 (take (posts conflict_then_missing_end)
                    conflict_then_missing))) 2.
Proof.
  split; [by vm_compute|].
  apply (update_doc_outcome conflict_then_missing limits_document
           conflict_then_missing_end).
  by vm_compute.
Defined.

Lemma update_doc_ends_witness :
  (6 ≤ length (filter (λ r, r ≠ Status404) six_conflicts))%nat ∧
  ∃ e, update_doc six_conflicts limits_document = Some e ∧
       (posts e ≤ length six_conflicts)%nat.
Proof.
  assert (6 ≤ length (filter (λ r, r ≠ Status404) six_conflicts))%nat
    as Hlen by (vm_compute; lia).
  split; [exact Hlen|].
  exact (update_doc_ends six_conflicts limits_document Hlen).
Defined.

Lemma delete_num_events_by_structure_accepted_witness :
  (∀ k, accepting_store k < 400 ∨ 600 <= accepting_store k) ∧
  let r :=
    delete_num_events_by_structure accepting_store stored_events
      (container node0_resources) "cpuBottleneck" 2 in
  delete_ended r = Ok tt ∧
  deletes_sent r =
    take (Z.to_nat 2)
      (delete_target <$>
         filter (event_of (container node0_resources) "cpuBottleneck")
           stored_events) ∧
  num_deleted r = Z.of_nat (length (deletes_sent r)) ∧
  num_deleted r <= Z.max 0 2.
Proof.
  assert (∀ k, accepting_store k < 400 ∨ 600 <= accepting_store k) as Hstore.
  { intros k. left. unfold accepting_store. lia. }
  split; [exact Hstore|].
  exact (delete_num_events_by_structure_accepted accepting_store stored_events
           (container node0_resources) "cpuBottleneck" 2 Hstore).
Defined.
